(** * MoviePilot-Plugins: the Plex partial-refresh scheduler and the hard-link hijacker

    A shallow embedding of
      - [plugins.v2/plexpartialrefresh/__init__.py] (class [PlexPartialRefresh]) and
      - [plugins.v2/hardlinkjacker/__init__.py]     (class [HardLinkJacker]),
    followed by the properties of the batching scheduler, of the
    configuration clamp, of the path handling and of the link replacement.

    Conventions of the embedding.
      - Python [str] is [string]; the characters are bytes (ASCII).
      - A Python call that may raise returns [result A]: [Ret a] or
        [Raise e].  A [try/except] is a [match] on the result.
      - A Python [dict] with string keys is a [gmap string _], a [set] of
        strings is a [gset string]; a dict whose iteration order matters
        is an association list in insertion order.
      - Side effects that a property speaks about (HTTP requests, sleeps,
        log records, file-system calls) are collected in a trace.
      - The two class-level maps guarded by [_timer_lock] are fields of
        one [sched] record; every critical section is one function on it. *)

From Stdlib Require Import ZArith String Ascii List Bool Lia.
From Stdlib Require Import SpecFloat.
From stdpp Require Import gmap strings list fin_maps.

Local Open Scope string_scope.
Local Open Scope Z_scope.

(* ===================================================================== *)
(** * Part I: definitions                                                 *)
(* ===================================================================== *)

(** ** Python exceptions and results *)

Inductive exn : Type :=
| ValueError
| TypeError
| OverflowError
| AttributeError
| OSError (msg : string)
| RequestException
| HTTPError (status : Z)
| ParseError.

Inductive result (A : Type) : Type :=
| Ret (a : A)
| Raise (e : exn).

Arguments Ret {A} a.
Arguments Raise {A} e.

Definition bind {A B : Type} (r : result A) (k : A -> result B) : result B :=
  match r with
  | Ret a => k a
  | Raise e => Raise e
  end.

Notation "'let*' x ':=' r 'in' k" := (bind r (fun x => k))
  (at level 10, x name, r at level 100, k at level 200).

Definition raises {A : Type} (r : result A) : bool :=
  match r with
  | Ret _ => false
  | Raise _ => true
  end.

(** ** Strings as Python uses them *)

Module PyStr.

Definition slash : ascii := "/"%char.
Definition backslash : ascii := "\"%char.

(** [c in s] for a one-character [c]. *)
Fixpoint contains_char (c : ascii) (s : string) : bool :=
  match s with
  | EmptyString => false
  | String d s' => if Ascii.eqb d c then true else contains_char c s'
  end.

(** [s.replace(a, b)] for one-character [a] and [b]: every occurrence. *)
Fixpoint replace_char (a b : ascii) (s : string) : string :=
  match s with
  | EmptyString => EmptyString
  | String d s' => String (if Ascii.eqb d a then b else d) (replace_char a b s')
  end.

(** [s.startswith(p)]. *)
Definition startswith (s p : string) : bool := String.prefix p s.

(** [s[n:]]. *)
Fixpoint drop_str (n : nat) (s : string) : string :=
  match n, s with
  | O, _ => s
  | S n', String _ s' => drop_str n' s'
  | S _, EmptyString => EmptyString
  end.

(** [s.replace(old, new, 1)]: the leftmost occurrence of [old] only. *)
Fixpoint replace_first (old new s : string) : string :=
  if String.prefix old s then new ++ drop_str (String.length old) s
  else match s with
       | EmptyString => EmptyString
       | String c s' => String c (replace_first old new s')
       end.

(** [s.endswith(suf)]. *)
Definition endswith (s suf : string) : bool :=
  let n := String.length s in
  let k := String.length suf in
  if (k <=? n)%nat then String.eqb (drop_str (n - k) s) suf else false.

(** [s.split(sep)] for a one-character separator: one more piece than
    there are separators. *)
Fixpoint split_on (sep : ascii) (s : string) : list string :=
  match s with
  | EmptyString => [EmptyString]
  | String c s' =>
      if Ascii.eqb c sep then EmptyString :: split_on sep s'
      else match split_on sep s' with
           | [] => [String c EmptyString]
           | w :: ws => String c w :: ws
           end
  end.

(** [sep.join(l)]. *)
Fixpoint join (sep : string) (l : list string) : string :=
  match l with
  | [] => EmptyString
  | [w] => w
  | w :: ws => w ++ sep ++ join sep ws
  end.

(** The ASCII characters for which [str.isspace] holds: 9-13 and 28-32. *)
Definition is_space (c : ascii) : bool :=
  let n := nat_of_ascii c in
  ((9 <=? n)%nat && (n <=? 13)%nat) || ((28 <=? n)%nat && (n <=? 32)%nat).

Fixpoint lstrip (l : list ascii) : list ascii :=
  match l with
  | c :: l' => if is_space c then lstrip l' else l
  | [] => []
  end.

(** [s.strip()] on the list of characters. *)
Definition strip (l : list ascii) : list ascii :=
  rev (lstrip (rev (lstrip l))).

(** [repr(s)] for a string of ASCII characters: single quotes, or double
    quotes when the string holds a single quote and no double one; the
    backslash and the quote in use are escaped, and so are the control
    characters. *)
Definition quote1 : ascii := "'"%char.
Definition quote2 : ascii := ascii_of_nat 34.

Definition hex_digit (n : nat) : ascii :=
  ascii_of_nat (if (n <? 10)%nat then 48 + n else 87 + n).

Definition escape (q c : ascii) : string :=
  let n := nat_of_ascii c in
  if Ascii.eqb c backslash || Ascii.eqb c q then String backslash (String c EmptyString)
  else if (n =? 9)%nat then "\t"
  else if (n =? 10)%nat then "\n"
  else if (n =? 13)%nat then "\r"
  else if (n <? 32)%nat || (n =? 127)%nat
       then String backslash
              (String "x" (String (hex_digit (n / 16))
                             (String (hex_digit (n mod 16)) EmptyString)))
       else String c EmptyString.

Fixpoint escape_all (q : ascii) (s : string) : string :=
  match s with
  | EmptyString => EmptyString
  | String c s' => escape q c ++ escape_all q s'
  end.

Definition repr (s : string) : string :=
  let q := if contains_char quote1 s && negb (contains_char quote2 s)
           then quote2 else quote1 in
  String q (escape_all q s ++ String q EmptyString).

End PyStr.

(** [str(err)] for an [OSError] raised by a call of the operating
    system on one path, or on two. *)
Definition os_error_text (errno strerror filename : string)
    (filename2 : option string) : string :=
  "[Errno " ++ errno ++ "] " ++ strerror ++ ": " ++ PyStr.repr filename
  ++ match filename2 with
     | Some f2 => " -> " ++ PyStr.repr f2
     | None => EmptyString
     end.

(** ** Python values found in a configuration dictionary, and [int(v)] *)

Inductive pyval : Type :=
| PyNone
| PyBool (b : bool)
| PyInt (z : Z)
| PyFloat (f : spec_float)
| PyStr (s : string)
| PyOther.   (* list, dict, ...: anything [int] rejects by type *)

Module PyInt.

Definition digit_val (c : ascii) : option Z :=
  let n := nat_of_ascii c in
  if (48 <=? n)%nat && (n <=? 57)%nat then Some (Z.of_nat (n - 48)) else None.

(** Decimal digits, single underscores allowed between two digits.
    [prev] tells whether the previous character was a digit. *)
Fixpoint parse_digits (acc : Z) (prev : bool) (l : list ascii) : option Z :=
  match l with
  | [] => if prev then Some acc else None
  | c :: l' =>
      if Ascii.eqb c "_"%char then
        if prev then parse_digits acc false l' else None
      else match digit_val c with
           | Some d => parse_digits (10 * acc + d) true l'
           | None => None
           end
  end.

(** The white space [int] skips around the number: the characters 9-13
    and the blank.  The separators 28-31, which [str.strip] removes as
    well, are not among them: [int] refuses a string that holds one. *)
Definition is_blank (c : ascii) : bool :=
  let n := nat_of_ascii c in
  ((9 <=? n)%nat && (n <=? 13)%nat) || (n =? 32)%nat.

Fixpoint skip_blanks (l : list ascii) : list ascii :=
  match l with
  | c :: l' => if is_blank c then skip_blanks l' else l
  | [] => []
  end.

(** [int(s)] for a string in base 10: the white space around the number
    is skipped, one sign is allowed, then [parse_digits].  The limit
    some interpreters put on the number of digits is not modelled. *)
Definition of_string (s : string) : result Z :=
  let body := rev (skip_blanks (rev (skip_blanks (list_ascii_of_string s)))) in
  let parsed :=
    match body with
    | c :: rest =>
        if Ascii.eqb c "-"%char then option_map Z.opp (parse_digits 0 false rest)
        else if Ascii.eqb c "+"%char then parse_digits 0 false rest
        else parse_digits 0 false body
    | [] => None
    end in
  match parsed with
  | Some z => Ret z
  | None => Raise ValueError
  end.

(** [int(f)] for a float: truncation toward zero; NaN is a [ValueError],
    an infinity an [OverflowError]. *)
Definition of_float (f : spec_float) : result Z :=
  match f with
  | S754_zero _ => Ret 0
  | S754_nan => Raise ValueError
  | S754_infinity _ => Raise OverflowError
  | S754_finite sign m e =>
      let mag := match e with
                 | Z.neg k => Z.shiftr (Z.pos m) (Z.pos k)
                 | _ => Z.shiftl (Z.pos m) e
                 end in
      Ret (if sign then - mag else mag)
  end.

Definition int (v : pyval) : result Z :=
  match v with
  | PyNone => Raise TypeError
  | PyBool b => Ret (if b then 1 else 0)
  | PyInt z => Ret z
  | PyFloat f => of_float f
  | PyStr s => of_string s
  | PyOther => Raise TypeError
  end.

End PyInt.

(** ** [PlexPartialRefresh.init_plugin]: the delay setting (lines 42-55)

    [config] is [None] or a dictionary.  [old] is [_batch_delay] before
    the call (the class attribute 60 on a fresh plug-in).  The result is
    the value of [_batch_delay] after the call, or the exception that
    leaves [init_plugin]. *)

Definition clamp_delay (d : Z) : Z :=
  if d <? 10 then 10 else if d >? 300 then 300 else d.

Definition init_plugin_batch_delay
    (config : option (gmap string pyval)) (old : Z) : result Z :=
  match config with
  | None => Ret old
  | Some c =>
      if (size c =? 0)%nat then Ret old      (* [if config:] is false for {} *)
      else
        match PyInt.int (default (PyInt 60) (c !! "batch_delay")) with
        | Ret d => Ret (clamp_delay d)
        | Raise ValueError => Ret 60
        | Raise TypeError => Ret 60
        | Raise e => Raise e
        end
  end.

(** ** [pathlib.Path] on a POSIX host

    The plug-in runs inside the host application (a Linux container), so
    [Path] is [PosixPath]: the separator is the forward slash and a
    backslash is an ordinary character of a component. *)

Module PosixPath.

Record t : Type := mk { root : string; parts : list string }.

(** A component that [Path(...)] keeps: not empty and not the single dot. *)
Definition keeps (w : string) : bool :=
  negb (String.eqb w EmptyString) && negb (String.eqb w ".").

(** [Path(s)]: one leading slash (or three and more) is the root [/],
    exactly two are the root [//]; empty components and [.] disappear. *)
Definition parse (s : string) : t :=
  match s with
  | String c1 rest1 =>
      if Ascii.eqb c1 PyStr.slash then
        match rest1 with
        | String c2 rest2 =>
            if Ascii.eqb c2 PyStr.slash then
              match rest2 with
              | String c3 _ =>
                  if Ascii.eqb c3 PyStr.slash
                  then mk "/" (filter (fun w => keeps w = true) (PyStr.split_on PyStr.slash rest1))
                  else mk "//" (filter (fun w => keeps w = true) (PyStr.split_on PyStr.slash rest2))
              | EmptyString => mk "//" []
              end
            else mk "/" (filter (fun w => keeps w = true) (PyStr.split_on PyStr.slash rest1))
        | EmptyString => mk "/" []
        end
      else mk EmptyString (filter (fun w => keeps w = true) (PyStr.split_on PyStr.slash s))
  | EmptyString => mk EmptyString []
  end.

(** [str(p)]. *)
Definition to_string (p : t) : string :=
  let body := root p ++ PyStr.join "/" (parts p) in
  if String.eqb body EmptyString then "." else body.

(** [p.parent]: the path without its last component; a path without
    components is its own parent. *)
Definition parent (p : t) : t :=
  mk (root p) (removelast (parts p)).

(** [p.name]: the last component, or the empty string. *)
Definition name (p : t) : string := List.last (parts p) EmptyString.

End PosixPath.

(** ** The file system as [_get_parent_path] sees it

    [Path.is_file] asks the operating system what the path names
    ([os.stat]).  The answer is a parameter of the model: a function
    from the path string to what is found there.  [NoEntry] stands for
    the errors [Path.is_file] turns into [False] ([ENOENT], [ENOTDIR],
    [EBADF], [ELOOP]); [Refused] for every other error of the operating
    system, which [Path.is_file] lets through as the [OSError] with the
    text [msg]: a name longer than the file system takes
    ([ENAMETOOLONG]), a directory that may not be searched ([EACCES]). *)

Inductive fkind : Type :=
| NoEntry | RegularFile | Directory | OtherEntry
| Refused (msg : string).

Definition filesystem : Type := string -> fkind.

Definition is_file (fs : filesystem) (p : PosixPath.t) : result bool :=
  match fs (PosixPath.to_string p) with
  | RegularFile => Ret true
  | Refused msg => Raise (OSError msg)
  | _ => Ret false
  end.

(** Whether the path names a directory, for the wording of the
    specification. *)
Definition is_dir (fs : filesystem) (p : PosixPath.t) : bool :=
  match fs (PosixPath.to_string p) with
  | Directory => true
  | _ => false
  end.

(** The longest name and the longest path Linux takes, in bytes (the
    path with its final zero). *)
Definition NAME_MAX : nat := 255.
Definition PATH_MAX : nat := 4096.

(** A path the operating system refuses ([ENAMETOOLONG]) when it looks
    it up: [PATH_MAX] bytes and more, or a component longer than
    [NAME_MAX] (met when the directories before it exist). *)
Definition too_long (p : string) : bool :=
  (PATH_MAX <=? String.length p)%nat
  || existsb (fun w => (NAME_MAX <? String.length w)%nat)
       (PosixPath.parts (PosixPath.parse p)).

(** The file system of a host that holds none of the Plex-side paths:
    a path without a component other than [..] names the root, the
    working directory or a directory above it; of any other path the
    operating system says that there is no such entry, or that a name
    is too long. *)
Definition no_files : filesystem := fun p =>
  if too_long p
  then Refused (os_error_text "36" "File name too long" p None)
  else if forallb (fun w => String.eqb w "..") (PosixPath.parts (PosixPath.parse p))
       then Directory
       else NoEntry.

(** ** [_get_parent_path] (lines 354-367) *)

Definition media_exts : list string := [".mkv"; ".mp4"; ".avi"; ".ts"; ".m2ts"].

Definition has_media_ext (name : string) : bool :=
  existsb (fun ext => PyStr.endswith name ext) media_exts.

(** [path.is_file()] is the first operand of the [or]: it is called for
    every path, outside any [try], and its [OSError] leaves the
    function. *)
Definition _get_parent_path (fs : filesystem) (file_path : string)
  : result string :=
  let path := PosixPath.parse file_path in
  let parent := PosixPath.parent path in
  let* file := is_file fs path in
  Ret (if file || has_media_ext (PosixPath.name path)
       then PosixPath.to_string parent
       else PosixPath.to_string path).

(** ** The plug-in instance and the host services it asks for *)

(** One entry of [_path_maps]: [mapping.get('local')], [mapping.get('plex')]. *)
Record mapping : Type := { m_local : option string; m_plex : option string }.

Record plugin : Type := {
  _enabled : bool;
  _plex_server : option string;
  _path_maps : list mapping;
  _batch_delay : Z
}.

(** Truth value of an optional string: [None] and the empty string are false. *)
Definition truthy (o : option string) : option string :=
  match o with
  | Some s => if String.eqb s EmptyString then None else Some s
  | None => None
  end.

(** Python's [a or b] on optional strings. *)
Definition py_or (a b : option string) : option string :=
  match truthy a with
  | Some s => Some s
  | None => b
  end.

(** What the host keeps for a media server: [instance.is_inactive()] and
    the attributes [_host], [host], [_token], [token] of the instance
    ([None] when the attribute is missing or is [None]). *)
Record service : Type := {
  s_inactive : bool;
  s__host : option string;
  s_host : option string;
  s__token : option string;
  s_token : option string
}.

(** [plex_service] (lines 70-83); [services] is the answer of
    [MediaServerHelper.get_services]. *)
Definition plex_service (self : plugin) (services : gmap string service)
  : option service :=
  match truthy (_plex_server self) with
  | None => None
  | Some srv =>
      match services !! srv with
      | None => None
      | Some info => if s_inactive info then None else Some info
      end
  end.

(** ** [map_path] (lines 190-209): longest local prefix first *)

Fixpoint best_mapping (maps : list mapping) (local_path : string)
    (best : option (string * string)) (best_len : Z) : option (string * string) :=
  match maps with
  | [] => best
  | m :: rest =>
      match truthy (m_local m), truthy (m_plex m) with
      | Some lp, Some pp =>
          if PyStr.startswith local_path lp
             && (best_len <? Z.of_nat (String.length lp))
          then best_mapping rest local_path (Some (lp, pp)) (Z.of_nat (String.length lp))
          else best_mapping rest local_path best best_len
      | _, _ => best_mapping rest local_path best best_len
      end
  end.

Definition map_path (self : plugin) (local_path : string) : option string :=
  match best_mapping (_path_maps self) local_path None (-1) with
  | Some (lp, pp) => Some (PyStr.replace_first lp pp local_path)
  | None => None
  end.

(** ** [refresh] (lines 432-456): the event handler

    [normalize_plex_path] is line 452.  [refresh_target] is the argument
    the handler gives to [_schedule_batch_refresh], or [None] when it
    returns before scheduling anything. *)

Definition normalize_plex_path (plex_path : string) : string :=
  if PyStr.contains_char PyStr.backslash plex_path
  then PyStr.replace_char PyStr.slash PyStr.backslash plex_path
  else plex_path.

(** The event: [event.event_data] ([None] when empty) holding the string
    of [transferinfo.target_diritem.path] ([None] when any of the three
    is missing or false). *)
Definition event : Type := option (option string).

Definition refresh_target (self : plugin) (services : gmap string service)
    (ev : event) : option string :=
  if negb (_enabled self) then None
  else match ev with
       | None => None
       | Some event_info =>
           match plex_service self services with
           | None => None
           | Some _ =>
               match truthy event_info with
               | None => None
               | Some local_path =>
                   match truthy (map_path self local_path) with
                   | None => None
                   | Some plex_path => Some (normalize_plex_path plex_path)
                   end
               end
           end
       end.

(** ** The Plex HTTP API as the plug-in sees it *)

(** One [Directory] element of [/library/sections]: the attributes
    [title], [key], [type] and the [path] attribute of each [Location]
    child.  [Element.get] returns [None] for a missing attribute. *)
Record directory : Type := {
  d_title : option string;
  d_key : option string;
  d_type : option string;
  d_locations : list (option string)
}.

Record library : Type := {
  lib_id : option string;
  lib_type : option string;
  lib_locations : list (option string)
}.

(** The answer to the refresh request: no answer at all, or a status code. *)
Inductive http_reply : Type :=
| NetworkError
| Status (code : Z).

(** What one call of [_refresh_plex_path_http] meets outside the plug-in:
    the services the host knows, the parsed answer of
    [GET /library/sections] (or the exception raised by the request, by
    [raise_for_status] or by the XML parser), and the answer to the
    refresh request. *)
Record upstream : Type := {
  up_services : gmap string service;
  up_sections : result (list directory);
  up_refresh : http_reply
}.

Fixpoint rstrip_slash_rev (l : list ascii) : list ascii :=
  match l with
  | c :: l' => if Ascii.eqb c PyStr.slash then rstrip_slash_rev l' else l
  | [] => []
  end.

(** [s.rstrip('/')]. *)
Definition rstrip_slash (s : string) : string :=
  string_of_list_ascii (rev (rstrip_slash_rev (rev (list_ascii_of_string s)))).

(** [_get_plex_connection_info] (lines 211-241): URL and token. *)
Definition _get_plex_connection_info (self : plugin) (up : upstream)
  : option (string * string) :=
  match plex_service self (up_services up) with
  | None => None
  | Some inst =>
      match truthy (py_or (s__host inst) (s_host inst)),
            truthy (py_or (s__token inst) (s_token inst)) with
      | Some plex_url, Some plex_token =>
          let plex_url :=
            if PyStr.startswith plex_url "http" then plex_url
            else "http://" ++ plex_url in
          Some (rstrip_slash plex_url, plex_token)
      | _, _ => None
      end
  end.

(** [d[k] = v] on a dictionary kept in insertion order. *)
Fixpoint dict_set {V : Type} (k : option string) (v : V)
    (d : list (option string * V)) : list (option string * V) :=
  match d with
  | [] => [(k, v)]
  | (k', v') :: d' =>
      if decide (k = k') then (k, v) :: d' else (k', v') :: dict_set k v d'
  end.

(** [_get_library_info] (lines 243-277): every exception gives [{}]. *)
Definition _get_library_info (up : upstream) : list (option string * library) :=
  match up_sections up with
  | Raise _ => []
  | Ret dirs =>
      fold_left
        (fun info d =>
           dict_set (d_title d)
             {| lib_id := d_key d; lib_type := d_type d;
                lib_locations := d_locations d |} info)
        dirs []
  end.

(** The running best match of [_find_matching_library]. *)
Record best := { best_match : option (option string * option string);
                 max_match_length : nat }.

(** The inner loop, lines 290-295.  [location.replace] on a [Location]
    without [path] attribute is a call on [None]: [AttributeError]. *)
Fixpoint scan_locations (target_path : string)
    (lib : option string * option string)
    (locations : list (option string)) (b : best) : result best :=
  match locations with
  | [] => Ret b
  | None :: _ => Raise AttributeError
  | Some location :: rest =>
      let location := PyStr.replace_char PyStr.backslash PyStr.slash location in
      if PyStr.startswith target_path location
         && (max_match_length b <? String.length location)%nat
      then scan_locations target_path lib rest
             {| best_match := Some lib;
                max_match_length := String.length location |}
      else scan_locations target_path lib rest b
  end.

Fixpoint scan_libraries (target_path : string)
    (info : list (option string * library)) (b : best) : result best :=
  match info with
  | [] => Ret b
  | (lib_name, lib_data) :: rest =>
      let* b' := scan_locations target_path (lib_name, lib_id lib_data)
                   (lib_locations lib_data) b in
      scan_libraries target_path rest b'
  end.

(** [_find_matching_library] (lines 279-302). *)
Definition _find_matching_library (target_path : string)
    (library_info : list (option string * library))
  : result (option (option string * option string)) :=
  let target_path := PyStr.replace_char PyStr.backslash PyStr.slash target_path in
  let* b := scan_libraries target_path library_info
              {| best_match := None; max_match_length := 0 |} in
  Ret (best_match b).

(** The [try] block of lines 327-352: every exception is caught there. *)
Definition refresh_request (up : upstream) : bool :=
  match up_refresh up with
  | NetworkError => false                       (* RequestException *)
  | Status code =>
      if (400 <=? code) && (code <? 600) then false   (* raise_for_status *)
      else code =? 200
  end.

(** [_refresh_plex_path_http] (lines 304-352). *)
Definition _refresh_plex_path_http (self : plugin) (up : upstream)
    (target_path : string) : result bool :=
  match _get_plex_connection_info self up with
  | None => Ret false
  | Some _ =>
      match _get_library_info up with
      | [] => Ret false
      | library_info =>
          let* library_match := _find_matching_library target_path library_info in
          match library_match with
          | None => Ret false
          | Some _ => Ret (refresh_request up)
          end
      end
  end.

(** ** [_execute_batch_refresh], the part outside the lock (lines 383-401) *)

Inductive level : Type := Info | Warning | Error.

(** What the batch processing does to the outside world, in order. *)
Inductive effect : Type :=
| Refresh (target_path : string) (outcome : result bool)
| Sleep (seconds : Z)
| Log (lv : level).

(** The fallback loop, lines 396-401: [try: refresh; sleep(1)] and
    [except Exception: log] for each path in turn. *)
Fixpoint refresh_each (self : plugin) (ups : string -> upstream)
    (paths : list string) : list effect :=
  match paths with
  | [] => []
  | path :: rest =>
      let outcome := _refresh_plex_path_http self (ups path) path in
      match outcome with
      | Ret _ => Refresh path outcome :: Sleep 1 :: refresh_each self ups rest
      | Raise _ => Refresh path outcome :: Log Error :: refresh_each self ups rest
      end
  end.

(** The order in which the loop over a Python set meets its elements.
    It depends on the hash seed of the process and on the history of
    the set, so it is a parameter of every call: some arrangement of
    the elements. *)
Record set_order : Type := {
  iter :> gset string -> list string;
  iter_perm : forall X, iter X ≡ₚ elements X
}.

(** Two orders: the one of [elements], and its reverse. *)
Definition first_order : set_order :=
  {| iter := elements; iter_perm := fun X => reflexivity (elements X) |}.

Definition second_order : set_order :=
  {| iter := fun X => rev (elements X);
     iter_perm := fun X => Permutation_sym (Permutation_rev (elements X)) |}.

(** Lines 383-401 for a captured batch.  [up] is what the batched call
    meets, [ups path] what the single call for [path] meets, [order]
    the order in which the loop of line 396 meets the paths. *)
Definition process_batch (self : plugin) (up : upstream)
    (ups : string -> upstream) (order : set_order) (parent_path : string)
    (paths_to_refresh : gset string) : result unit * list effect :=
  if decide (paths_to_refresh = ∅) then (Ret tt, [])
  else
    match _refresh_plex_path_http self up parent_path with
    | Raise e => (Raise e, [Log Info; Refresh parent_path (Raise e)])
    | Ret true => (Ret tt, [Log Info; Refresh parent_path (Ret true); Log Info])
    | Ret false =>
        (Ret tt,
         Log Info :: Refresh parent_path (Ret false) :: Log Warning
           :: refresh_each self ups (order paths_to_refresh))
    end.

(** ** The scheduler: the two maps, the timers and the clock *)

(** The thread of a [threading.Timer]: it waits for the interval or for
    [cancel], then calls the function unless it was cancelled, then ends. *)
Inductive phase : Type := Waiting | Running | Finished.

Record timer : Type := {
  t_key : string;          (* args[0] of the deferred call *)
  t_deadline : Z;          (* start time + interval *)
  t_phase : phase;
  t_cancelled : bool       (* [cancel] has been called *)
}.

Definition is_alive (t : timer) : bool :=
  match t_phase t with
  | Finished => false
  | _ => true
  end.

Definition cancel (t : timer) : timer :=
  {| t_key := t_key t; t_deadline := t_deadline t;
     t_phase := t_phase t; t_cancelled := true |}.

Definition set_phase (ph : phase) (t : timer) : timer :=
  {| t_key := t_key t; t_deadline := t_deadline t;
     t_phase := ph; t_cancelled := t_cancelled t |}.

(** One call of the deferred function: when, for which key, and the
    batch it captured ([None] when the key was absent). *)
Record fire_record : Type := {
  f_time : Z;
  f_key : string;
  f_batch : option (gset string)
}.

(** [_pending_refreshes] and [_refresh_timers] are the class attributes.
    A timer handle is the index of the [Timer] object in [heap], the
    list of all timers ever created.  [clock] is the time in seconds,
    [fired] the calls of the deferred function so far. *)
Record sched : Type := {
  _pending_refreshes : gmap string (gset string);
  _refresh_timers : gmap string nat;
  heap : list timer;
  clock : Z;
  fired : list fire_record
}.

Definition init_sched : sched :=
  {| _pending_refreshes := ∅; _refresh_timers := ∅; heap := [];
     clock := 0; fired := [] |}.

(** The critical section of [_schedule_batch_refresh] (lines 409-427). *)
Definition schedule_key (delay : Z) (parent_path plex_path : string)
    (s : sched) : sched :=
  let heap1 :=
    match _refresh_timers s !! parent_path with
    | Some h => alter cancel h (heap s)
    | None => heap s
    end in
  {| _pending_refreshes :=
       <[parent_path :=
           {[plex_path]} ∪ default ∅ (_pending_refreshes s !! parent_path)]>
         (_pending_refreshes s);
     _refresh_timers := <[parent_path := length heap1]> (_refresh_timers s);
     heap := heap1 ++ [ {| t_key := parent_path;
                           t_deadline := clock s + delay;
                           t_phase := Waiting;
                           t_cancelled := false |} ];
     clock := clock s;
     fired := fired s |}.

(** [_schedule_batch_refresh] (lines 403-430): the key is computed
    before the lock is taken; when that raises, nothing has changed. *)
Definition _schedule_batch_refresh (fs : filesystem) (self : plugin)
    (plex_path : string) (s : sched) : result sched :=
  let* parent_path := _get_parent_path fs plex_path in
  Ret (schedule_key (_batch_delay self) parent_path plex_path s).

(** The scheduler after a call that may raise: a call that has raised
    has not reached its critical section. *)
Definition state_after (r : result sched) (s : sched) : sched :=
  match r with
  | Ret s' => s'
  | Raise _ => s
  end.

(** The critical section of [_execute_batch_refresh] (lines 373-381):
    the captured set, or [None] when the key is absent. *)
Definition take_batch (parent_path : string) (s : sched)
  : sched * option (gset string) :=
  match _pending_refreshes s !! parent_path with
  | None => (s, None)
  | Some paths_to_refresh =>
      ({| _pending_refreshes := delete parent_path (_pending_refreshes s);
          _refresh_timers := delete parent_path (_refresh_timers s);
          heap := heap s; clock := clock s; fired := fired s |},
       Some paths_to_refresh)
  end.

(** [_execute_batch_refresh] (lines 369-401): the new scheduler state,
    how the call ends, and what it did outside the lock. *)
Definition _execute_batch_refresh (self : plugin) (up : upstream)
    (ups : string -> upstream) (order : set_order) (parent_path : string)
    (s : sched) : sched * (result unit * list effect) :=
  match take_batch parent_path s with
  | (s', None) => (s', (Ret tt, []))
  | (s', Some paths_to_refresh) =>
      (s', process_batch self up ups order parent_path paths_to_refresh)
  end.

(** The loop of [stop_service]: [cancel] on every handle that is alive. *)
Definition cancel_alive (handles : list nat) (h : list timer) : list timer :=
  fold_left
    (fun h i => alter (fun t => if is_alive t then cancel t else t) i h)
    handles h.

(** [stop_service] (lines 458-468). *)
Definition stop_service (s : sched) : sched :=
  {| _pending_refreshes := ∅;
     _refresh_timers := ∅;
     heap := cancel_alive (map snd (map_to_list (_refresh_timers s))) (heap s);
     clock := clock s;
     fired := fired s |}.

(** [refresh] (lines 432-456) on the scheduler state: the call of
    [_schedule_batch_refresh] is its last statement, outside any [try]. *)
Definition refresh (fs : filesystem) (self : plugin)
    (services : gmap string service) (ev : event) (s : sched) : result sched :=
  match refresh_target self services ev with
  | Some plex_path => _schedule_batch_refresh fs self plex_path s
  | None => Ret s
  end.

(** ** The timer threads *)

Definition set_heap (h : list timer) (s : sched) : sched :=
  {| _pending_refreshes := _pending_refreshes s;
     _refresh_timers := _refresh_timers s;
     heap := h; clock := clock s; fired := fired s |}.

(** [finished.wait(interval)] returns and the flag is read: a cancelled
    timer ends, a timer whose interval has passed goes on to the call. *)
Definition timer_wake (i : nat) (s : sched) : sched :=
  match heap s !! i with
  | Some t =>
      match t_phase t with
      | Waiting =>
          if t_cancelled t then set_heap (alter (set_phase Finished) i (heap s)) s
          else if t_deadline t <=? clock s
               then set_heap (alter (set_phase Running) i (heap s)) s
               else s
      | _ => s
      end
  | None => s
  end.

(** [self.function] on [self.args]: the deferred call takes the lock and
    runs the critical section, and the thread ends.  What the call does
    next, outside the lock, is [process_batch] on the batch recorded in
    [fired]; it does not touch the scheduler. *)
Definition timer_call (i : nat) (s : sched) : sched :=
  match heap s !! i with
  | Some t =>
      match t_phase t with
      | Running =>
          let '(s', batch) := take_batch (t_key t) s in
          {| _pending_refreshes := _pending_refreshes s';
             _refresh_timers := _refresh_timers s';
             heap := alter (set_phase Finished) i (heap s');
             clock := clock s';
             fired := fired s' ++ [ {| f_time := clock s'; f_key := t_key t;
                                       f_batch := batch |} ] |}
      | _ => s
      end
  | None => s
  end.

(** A timer thread that is not interrupted between the two steps. *)
Definition timer_thread (i : nat) (s : sched) : sched :=
  timer_call i (timer_wake i s).

(** One second passes. *)
Definition advance_clock (s : sched) : sched :=
  {| _pending_refreshes := _pending_refreshes s;
     _refresh_timers := _refresh_timers s;
     heap := heap s; clock := clock s + 1; fired := fired s |}.

(** The thread of every timer runs, in the order of creation: the
    timers that are due make their call, the cancelled ones end. *)
Definition run_due (s : sched) : sched :=
  fold_left (fun s i => timer_thread i s) (seq 0 (length (heap s))) s.

(** One second passes, then the threads run. *)
Definition tick (s : sched) : sched := run_due (advance_clock s).

(** [n] seconds pass. *)
Fixpoint wait (n : nat) (s : sched) : sched :=
  match n with
  | O => s
  | S n' => wait n' (tick s)
  end.

(** A call of [schedule] on the time line: the seconds since the call
    before, the path, and who wins the race for the lock when timers
    are due at the second of the call: the call ([c_first] true) or the
    threads of those timers. *)
Record call : Type := {
  c_gap : nat;
  c_path : string;
  c_first : bool
}.

(** The call [c], [c_gap c] seconds after the state [s].  With a gap of
    zero the call comes in the second of [s], whose timer threads have
    run. *)
Definition schedule_at (fs : filesystem) (self : plugin) (c : call)
    (s : sched) : result sched :=
  match c_gap c with
  | O => _schedule_batch_refresh fs self (c_path c) s
  | S g =>
      let s' := advance_clock (wait g s) in
      if c_first c
      then let* s'' := _schedule_batch_refresh fs self (c_path c) s' in
           Ret (run_due s'')
      else _schedule_batch_refresh fs self (c_path c) (run_due s')
  end.

(** Calls of [schedule] along the time line, as long as they return. *)
Fixpoint run_calls (fs : filesystem) (self : plugin)
    (calls : list call) (s : sched) : result sched :=
  match calls with
  | [] => Ret s
  | c :: rest =>
      let* s' := schedule_at fs self c s in
      run_calls fs self rest s'
  end.

(** The deferred calls made up to [n] seconds after calls that have
    returned: time, key and paths of each. *)
Definition fired_after (n : nat) (r : result sched)
  : result (list (Z * string * option (list string))) :=
  let* s := r in
  Ret (map (fun f => (f_time f, f_key f, elements <$> f_batch f))
         (fired (wait n s))).

(** The calls of the deferred function for one key. *)
Definition fires_for (key : string) (l : list fire_record) : list fire_record :=
  filter (fun r => f_key r = key) l.

(** ** Any interleaving of the operations *)

Inductive action : Type :=
| ASchedule (fs : filesystem) (self : plugin) (plex_path : string)
| AFire (parent_path : string)      (* the deferred call, whoever makes it *)
| AStop
| AWake (i : nat)
| ACall (i : nat)
| ATick.

Definition step (a : action) (s : sched) : sched :=
  match a with
  | ASchedule fs self plex_path =>
      state_after (_schedule_batch_refresh fs self plex_path s) s
  | AFire parent_path => fst (take_batch parent_path s)
  | AStop => stop_service s
  | AWake i => timer_wake i s
  | ACall i => timer_call i s
  | ATick => advance_clock s
  end.

Inductive reachable : sched -> Prop :=
| reach_init : reachable init_sched
| reach_step a s : reachable s -> reachable (step a s).

Definition run_actions (acts : list action) (s : sched) : sched :=
  fold_left (fun s a => step a s) acts s.

(** ** The lock: what each operation does, statement by statement

    [Acquire] and [Release] are the entry and the exit of
    [with self._timer_lock]; every other primitive is one statement that
    changes [_pending_refreshes], [_refresh_timers] or a timer. *)

Inductive prim : Type :=
| Acquire
| Release
| PendingAdd (key path : string)    (* _pending_refreshes[key].add(path) *)
| PendingDel (key : string)         (* del _pending_refreshes[key] *)
| PendingClear                      (* _pending_refreshes.clear() *)
| TimerCancel (key : string)        (* _refresh_timers[key].cancel() *)
| TimerStart (key : string) (delay : Z)
                                    (* _refresh_timers[key] = Timer(...); start() *)
| TimersDel (key : string)          (* del _refresh_timers[key] *)
| TimersCancelAlive                 (* the loop of stop_service *)
| TimersClear.                      (* _refresh_timers.clear() *)

Definition exec (p : prim) (s : sched) : sched :=
  match p with
  | Acquire | Release => s
  | PendingAdd key path =>
      {| _pending_refreshes :=
           <[key := {[path]} ∪ default ∅ (_pending_refreshes s !! key)]>
             (_pending_refreshes s);
         _refresh_timers := _refresh_timers s;
         heap := heap s; clock := clock s; fired := fired s |}
  | PendingDel key =>
      {| _pending_refreshes := delete key (_pending_refreshes s);
         _refresh_timers := _refresh_timers s;
         heap := heap s; clock := clock s; fired := fired s |}
  | PendingClear =>
      {| _pending_refreshes := ∅;
         _refresh_timers := _refresh_timers s;
         heap := heap s; clock := clock s; fired := fired s |}
  | TimerCancel key =>
      match _refresh_timers s !! key with
      | Some h => set_heap (alter cancel h (heap s)) s
      | None => s
      end
  | TimerStart key delay =>
      {| _pending_refreshes := _pending_refreshes s;
         _refresh_timers := <[key := length (heap s)]> (_refresh_timers s);
         heap := heap s ++ [ {| t_key := key; t_deadline := clock s + delay;
                                t_phase := Waiting; t_cancelled := false |} ];
         clock := clock s; fired := fired s |}
  | TimersDel key =>
      {| _pending_refreshes := _pending_refreshes s;
         _refresh_timers := delete key (_refresh_timers s);
         heap := heap s; clock := clock s; fired := fired s |}
  | TimersCancelAlive =>
      set_heap (cancel_alive (map snd (map_to_list (_refresh_timers s))) (heap s)) s
  | TimersClear =>
      {| _pending_refreshes := _pending_refreshes s;
         _refresh_timers := ∅;
         heap := heap s; clock := clock s; fired := fired s |}
  end.

Definition run (ps : list prim) (s : sched) : sched :=
  fold_left (fun s p => exec p s) ps s.

Definition has_key {V : Type} (m : gmap string V) (k : string) : bool :=
  match m !! k with
  | Some _ => true
  | None => false
  end.

(** Lines 409-427 of [_schedule_batch_refresh]. *)
Definition schedule_prims (delay : Z) (parent_path plex_path : string)
    (s : sched) : list prim :=
  [Acquire; PendingAdd parent_path plex_path]
  ++ (if has_key (_refresh_timers s) parent_path
      then [TimerCancel parent_path] else [])
  ++ [TimerStart parent_path delay; Release].

(** Lines 373-381 of [_execute_batch_refresh]. *)
Definition fire_prims (parent_path : string) (s : sched) : list prim :=
  Acquire
  :: (if has_key (_pending_refreshes s) parent_path
      then PendingDel parent_path
           :: (if has_key (_refresh_timers s) parent_path
               then [TimersDel parent_path] else [])
      else [])
  ++ [Release].

(** Lines 462-467 of [stop_service]. *)
Definition stop_prims : list prim :=
  [Acquire; TimersCancelAlive; TimersClear; PendingClear; Release].

(** The three operations of the source that touch the maps. *)
Inductive operation : Type :=
| OpSchedule (delay : Z) (parent_path plex_path : string)
| OpFire (parent_path : string)
| OpStop.

Definition prims_of (o : operation) (s : sched) : list prim :=
  match o with
  | OpSchedule delay parent_path plex_path =>
      schedule_prims delay parent_path plex_path s
  | OpFire parent_path => fire_prims parent_path s
  | OpStop => stop_prims
  end.

Definition apply_op (o : operation) (s : sched) : sched :=
  match o with
  | OpSchedule delay parent_path plex_path =>
      schedule_key delay parent_path plex_path s
  | OpFire parent_path => fst (take_batch parent_path s)
  | OpStop => stop_service s
  end.

(** Every statement that changes a map or a timer runs with the lock
    held; the lock is free before and after. *)
Fixpoint lock_ok (held : bool) (ps : list prim) : bool :=
  match ps with
  | [] => negb held
  | Acquire :: rest => negb held && lock_ok true rest
  | Release :: rest => held && lock_ok false rest
  | _ :: rest => held && lock_ok held rest
  end.

Definition changes_pending (p : prim) : bool :=
  match p with
  | PendingAdd _ _ | PendingDel _ | PendingClear => true
  | _ => false
  end.

Definition changes_timers (p : prim) : bool :=
  match p with
  | TimerStart _ _ | TimersDel _ | TimersClear => true
  | _ => false
  end.

(** ** [HardLinkJacker]: the replacement of [LocalStorage.link] *)

Module HardLink.

(** The three calls the plug-in makes on [pathlib.Path].  A call that
    raises leaves the file system as it was. *)
Record fs_ops (FS : Type) : Type := {
  path_exists : string -> FS -> result bool;        (* dest.exists() *)
  path_unlink : string -> FS -> result FS;          (* dest.unlink() *)
  path_hardlink_to : string -> string -> FS -> result FS
                                                    (* dest.hardlink_to(src) *)
}.

Arguments path_exists {FS} _ _ _.
Arguments path_unlink {FS} _ _ _.
Arguments path_hardlink_to {FS} _ _ _ _.

Inductive fs_call : Type :=
| CallExists (dest : string)
| CallUnlink (dest : string)
| CallHardlinkTo (dest src : string).

(** [str(err)]. *)
Definition exn_str (e : exn) : string :=
  match e with
  | OSError msg => msg
  | ValueError => "ValueError"
  | TypeError => "TypeError"
  | OverflowError => "OverflowError"
  | AttributeError => "AttributeError"
  | RequestException => "RequestException"
  | HTTPError _ => "HTTPError"
  | ParseError => "ParseError"
  end.

(** The body of the [try] of [_custom_link_logic] (lines 147-156): the
    file system afterwards, the calls made, and how the body ends. *)
Definition link_body {FS : Type} (ops : fs_ops FS) (src dest : string) (fs : FS)
  : FS * list fs_call * result unit :=
  match path_exists ops dest fs with
  | Raise e => (fs, [CallExists dest], Raise e)
  | Ret false =>
      match path_hardlink_to ops dest src fs with
      | Raise e => (fs, [CallExists dest; CallHardlinkTo dest src], Raise e)
      | Ret fs' => (fs', [CallExists dest; CallHardlinkTo dest src], Ret tt)
      end
  | Ret true =>
      match path_unlink ops dest fs with
      | Raise e => (fs, [CallExists dest; CallUnlink dest], Raise e)
      | Ret fs1 =>
          match path_hardlink_to ops dest src fs1 with
          | Raise e =>
              (fs1, [CallExists dest; CallUnlink dest; CallHardlinkTo dest src],
               Raise e)
          | Ret fs2 =>
              (fs2, [CallExists dest; CallUnlink dest; CallHardlinkTo dest src],
               Ret tt)
          end
      end
  end.

Definition fail_prefix : string := "自定义硬链接失败: ".

(** [_custom_link_logic] (lines 138-161): [(code, message)]. *)
Definition _custom_link_logic {FS : Type} (ops : fs_ops FS) (src dest : string)
    (fs : FS) : FS * list fs_call * (Z * string) :=
  match link_body ops src dest fs with
  | (fs', calls, Ret _) => (fs', calls, (0, EmptyString))
  | (fs', calls, Raise err) => (fs', calls, (-1, fail_prefix ++ exn_str err))
  end.

(** [_custom_link_method] (lines 109-136).  [fileitem_path] is
    [fileitem.path]; the counter is [_intercept_count]. *)
Definition _custom_link_method {FS : Type} (ops : fs_ops FS)
    (intercept_count : nat) (fileitem_path : option string)
    (target_file : string) (fs : FS) : nat * FS * list fs_call * bool :=
  match truthy fileitem_path with
  | None => (S intercept_count, fs, [], false)
  | Some p =>
      let file_path := PosixPath.to_string (PosixPath.parse p) in
      match _custom_link_logic ops file_path target_file fs with
      | (fs', calls, (code, message)) =>
          (S intercept_count, fs', calls, code =? 0)
      end
  end.

(** A file system in memory, on Linux: a path names a regular file,
    that is an inode, or a directory.  The paths are kept as the plug-in
    writes them, [str(Path)].  What the model leaves out: symbolic
    links, permissions, and more than one device; every directory on
    the way to a path is taken to exist. *)
Inductive node : Type :=
| File (ino : nat)
| Dir.

Abbreviation memfs := (gmap string node) (only parsing).

Definition ENAMETOOLONG (p : string) (p2 : option string) : exn :=
  OSError (os_error_text "36" "File name too long" p p2).
Definition ENOENT (p : string) (p2 : option string) : exn :=
  OSError (os_error_text "2" "No such file or directory" p p2).
Definition EISDIR (p : string) : exn :=
  OSError (os_error_text "21" "Is a directory" p None).
Definition EEXIST (p : string) (p2 : option string) : exn :=
  OSError (os_error_text "17" "File exists" p p2).
Definition EPERM (p : string) (p2 : option string) : exn :=
  OSError (os_error_text "1" "Operation not permitted" p p2).

(** [Path.exists] turns a missing entry into [False] and lets the other
    errors through; [unlink] refuses a directory; [os.link(src, dest)]
    looks up [src], then refuses a [dest] that exists, then a [src]
    that is a directory. *)
Definition mem_ops : fs_ops memfs :=
  {| path_exists := fun p fs =>
       if too_long p then Raise (ENAMETOOLONG p None)
       else Ret (has_key fs p);
     path_unlink := fun p fs =>
       if too_long p then Raise (ENAMETOOLONG p None)
       else match fs !! p with
            | Some (File _) => Ret (delete p fs)
            | Some Dir => Raise (EISDIR p)
            | None => Raise (ENOENT p None)
            end;
     path_hardlink_to := fun dest src fs =>
       if too_long src || too_long dest
       then Raise (ENAMETOOLONG src (Some dest))
       else match fs !! src, fs !! dest with
            | None, _ => Raise (ENOENT src (Some dest))
            | Some _, Some _ => Raise (EEXIST src (Some dest))
            | Some Dir, None => Raise (EPERM src (Some dest))
            | Some (File ino), None => Ret (<[dest := File ino]> fs)
            end |}.

End HardLink.

(** ** The batching key as the specification words it

    The key is the parent directory, except for a path that denotes a
    directory rather than a recognized media file, whose key is the path
    itself. *)
Definition spec_batching_key (fs : filesystem) (p : string) : string :=
  let path := PosixPath.parse p in
  if is_dir fs path && negb (has_media_ext (PosixPath.name path))
  then p
  else PosixPath.to_string (PosixPath.parent path).

(** An absolute path in normal form, from its components. *)
Definition abs_path (comps : list string) : string :=
  "/" ++ PyStr.join "/" comps.

(** A component as it stands in a path in normal form. *)
Definition component (w : string) : Prop :=
  PosixPath.keeps w = true /\ PyStr.contains_char PyStr.slash w = false.

(** ** Interleavings in which a timer thread is not interrupted

    The operations as the specification sees them: a call of
    [schedule], the whole thread of a timer, [stop_service], and the
    passing of a second. *)

Inductive whole_action : Type :=
| WSchedule (fs : filesystem) (self : plugin) (plex_path : string)
| WThread (i : nat)
| WStop
| WTick.

Definition whole_step (a : whole_action) (s : sched) : sched :=
  match a with
  | WSchedule fs self plex_path =>
      state_after (_schedule_batch_refresh fs self plex_path s) s
  | WThread i => timer_thread i s
  | WStop => stop_service s
  | WTick => advance_clock s
  end.

Inductive whole_reachable : sched -> Prop :=
| whole_init : whole_reachable init_sched
| whole_next a s : whole_reachable s -> whole_reachable (whole_step a s).

(** ** Predicates of the statements *)

(** The paths for which a refresh was attempted, in order. *)
Fixpoint attempts (effs : list effect) : list string :=
  match effs with
  | [] => []
  | Refresh p _ :: rest => p :: attempts rest
  | _ :: rest => attempts rest
  end.

(** Every attempt that returned is followed at once by a sleep of one second. *)
Fixpoint paced (effs : list effect) : bool :=
  match effs with
  | [] => true
  | Refresh _ (Ret _) :: rest =>
      match rest with
      | Sleep 1 :: _ => paced rest
      | _ => false
      end
  | _ :: rest => paced rest
  end.

(** Between two attempts that follow each other there is a sleep.
    [pending_attempt] tells whether an attempt was made and no sleep
    has come since. *)
Fixpoint sleep_between (pending_attempt : bool) (effs : list effect) : bool :=
  match effs with
  | [] => true
  | Refresh _ _ :: rest =>
      if pending_attempt then false else sleep_between true rest
  | Sleep _ :: rest => sleep_between false rest
  | Log _ :: rest => sleep_between pending_attempt rest
  end.

(** Every [Location] of the library carries its [path]. *)
Definition located (lib : library) : Prop :=
  Forall (fun l : option string => l <> None) (lib_locations lib).

(** The invariant of the data model: the same keys in both maps, and no
    empty pending set. *)
Definition maps_agree (s : sched) : Prop :=
  dom (_pending_refreshes s) = dom (_refresh_timers s)
  /\ forall key paths, _pending_refreshes s !! key = Some paths -> paths <> ∅.

(** The body of the loop of [stop_service]. *)
Definition cancel_if_alive (t : timer) : timer :=
  if is_alive t then cancel t else t.

(** A timer that will make no call: its thread has ended, or it waits
    and has been cancelled. *)
Definition spent (t : timer) : Prop :=
  t_phase t = Finished \/ (t_phase t = Waiting /\ t_cancelled t = true).

(** A timer whose thread makes the call when it runs next. *)
Definition will_call (now : Z) (t : timer) : Prop :=
  t_phase t = Running
  \/ (t_phase t = Waiting /\ t_cancelled t = false /\ t_deadline t <= now).

(** Every timer that may still call is the one the timer map holds for
    its key. *)
Definition registered (s : sched) : Prop :=
  forall i t, heap s !! i = Some t ->
    spent t
    \/ (t_phase t = Waiting /\ t_cancelled t = false
        /\ _refresh_timers s !! t_key t = Some i).

(** The state after the call made by timer [i]. *)
Definition fire_result (i : nat) (t : timer) (s : sched) : sched :=
  {| _pending_refreshes := _pending_refreshes (take_batch (t_key t) s).1;
     _refresh_timers := _refresh_timers (take_batch (t_key t) s).1;
     heap := alter (set_phase Finished) i (heap s);
     clock := clock s;
     fired := fired s ++ [ {| f_time := clock s; f_key := t_key t;
                              f_batch := (take_batch (t_key t) s).2 |} ] |}.

(** What a run of the thread of timer [i] can do to the state: nothing,
    end a cancelled timer, or make the deferred call. *)
Inductive thread_outcome (i : nat) (s : sched) : sched -> Prop :=
| outcome_idle : thread_outcome i s s
| outcome_reap t :
    heap s !! i = Some t -> t_phase t = Waiting -> t_cancelled t = true ->
    thread_outcome i s (set_heap (alter (set_phase Finished) i (heap s)) s)
| outcome_fire t :
    heap s !! i = Some t -> will_call (clock s) t ->
    thread_outcome i s (fire_result i t s).

(** Nothing is pending for the key and none of its timers will call. *)
Definition quiescent (key : string) (s : sched) : Prop :=
  _pending_refreshes s !! key = None
  /\ forall i t, heap s !! i = Some t -> t_key t = key -> spent t.

(** A batch is pending for the key: the set [paths], the handle [h] in
    the timer map, whose timer waits for the deadline [d] and is not
    cancelled; every other timer of the key will make no call. *)
Definition armed (key : string) (h : nat) (d : Z) (paths : gset string)
    (s : sched) : Prop :=
  _pending_refreshes s !! key = Some paths
  /\ _refresh_timers s !! key = Some h
  /\ heap s !! h = Some {| t_key := key; t_deadline := d;
                           t_phase := Waiting; t_cancelled := false |}
  /\ forall i t, i <> h -> heap s !! i = Some t -> t_key t = key -> spent t.

(** The threads of the timers [l], one after the other. *)
Definition run_threads (l : list nat) (s : sched) : sched :=
  fold_left (fun s i => timer_thread i s) l s.

(** ** Sample data *)

(** A plug-in configured with two mappings and the default delay. *)
Definition demo_plugin : plugin :=
  {| _enabled := true;
     _plex_server := Some "plex";
     _path_maps := [ {| m_local := Some "/files1"; m_plex := Some "E:\videos" |};
                     {| m_local := Some "/files2"; m_plex := Some "/movies" |} ];
     _batch_delay := 60 |}.

(** The Plex server the host knows under the name [plex]. *)
Definition demo_service : service :=
  {| s_inactive := false; s__host := Some "plex.local:32400"; s_host := None;
     s__token := Some "token"; s_token := None |}.

Definition demo_services : gmap string service := {[ "plex" := demo_service ]}.

(** An upstream whose library list cannot be fetched: the call returns false. *)
Definition up_unreachable : upstream :=
  {| up_services := demo_services;
     up_sections := Raise RequestException;
     up_refresh := NetworkError |}.

(** An upstream whose library list holds a [Location] without [path]. *)
Definition up_malformed : upstream :=
  {| up_services := demo_services;
     up_sections := Ret [ {| d_title := Some "TV"; d_key := Some "2";
                             d_type := Some "show";
                             d_locations := [None] |} ];
     up_refresh := Status 200 |}.

(** The first episode meets the malformed answer, every other path the
    unreachable server. *)
Definition demo_ups (p : string) : upstream :=
  if String.eqb p "/lib/showA/e01.mkv" then up_malformed else up_unreachable.

(** The scheduler after one call of [schedule]. *)
Definition one_scheduled : sched :=
  step (ASchedule no_files demo_plugin "/lib/showA/e01.mkv") init_sched.

(** Two episodes of one season, the second five seconds after the first. *)
Definition two_episodes : list call :=
  [ {| c_gap := 0; c_path := "/lib/showA/s01/e01.mkv"; c_first := true |};
    {| c_gap := 5; c_path := "/lib/showA/s01/e02.mkv"; c_first := false |} ].

(** A second call of [schedule] between the two steps of the thread of
    the first timer, at second 60: the first call, 59 seconds in which
    the thread of the timer wakes and finds nothing to do, then at
    second 60 the thread reads its flag ([AWake]), the second call
    takes the lock, and the thread makes its call ([ACall]). *)
Definition interrupted_thread : sched :=
  run_actions
    ([ASchedule no_files demo_plugin "/lib/showA/e01.mkv"]
     ++ concat (repeat [ATick; AWake 0; ACall 0] 59)
     ++ [ATick; AWake 0;
         ASchedule no_files demo_plugin "/lib/showA/e02.mkv";
         ACall 0])%list
    init_sched.

(** ** [init_plugin]: the path mappings (lines 57-68)

    [path_maps_text] holds one mapping per line, [local => plex]; when it
    is not empty it replaces the list [path_maps] of the configuration. *)

Module MapsText.





(** [s.strip()]. *)
Definition strip (s : string) : string :=
  string_of_list_ascii (PyStr.strip (list_ascii_of_string s)).






End MapsText.

(** ** [HardLinkJacker]: taking over [LocalStorage.link] and giving it back
    (lines 38-107 and 335-341) *)

Module Hijack.

(** What the class attribute [LocalStorage.link] may hold: a method of
    the host, or the wrapper of the plug-in. *)
Inductive link_impl (M : Type) : Type :=
| HostLink (m : M)
| CustomWrapper.

Arguments HostLink {M} m.
Arguments CustomWrapper {M}.

(** The plug-in instance; [_enabled] is kept as its truth value. *)
Record jacker (M : Type) : Type := {
  _enabled : bool;
  _intercept_count : nat;
  _original_link_method : option (link_impl M);
  _hijacked : bool
}.

Arguments _enabled {M} _.
Arguments _intercept_count {M} _.
Arguments _original_link_method {M} _.
Arguments _hijacked {M} _.

(** The instance together with the class attribute it patches. *)
Definition world (M : Type) : Type := (jacker M * link_impl M)%type.

(** [__init__] (lines 38-43). *)
Definition new_jacker {M : Type} : jacker M :=
  {| _enabled := false; _intercept_count := 0;
     _original_link_method := None; _hijacked := false |}.

(** [_hijack_link_method] (lines 67-93). *)
Definition _hijack_link_method {M : Type} (w : world M) : world M :=
  let '(self, link) := w in
  if _hijacked self then w
  else ({| _enabled := _enabled self;
           _intercept_count := _intercept_count self;
           _original_link_method := Some link;
           _hijacked := true |},
        CustomWrapper).

(** [_restore_link_method] (lines 95-107). *)
Definition _restore_link_method {M : Type} (w : world M) : world M :=
  let '(self, link) := w in
  if negb (_hijacked self) then w
  else match _original_link_method self with
       | None => w
       | Some original =>
           ({| _enabled := _enabled self;
               _intercept_count := _intercept_count self;
               _original_link_method := _original_link_method self;
               _hijacked := false |},
            original)
       end.

(** [init_plugin] (lines 45-59).  [config] is [None] for a missing or
    empty configuration, else the truth value of
    [config.get("enabled", False)]. *)
Definition init_plugin {M : Type} (config : option bool) (w : world M) : world M :=
  let '(self, link) := w in
  let enabled := default false config in
  let w' := ({| _enabled := enabled;
                _intercept_count := _intercept_count self;
                _original_link_method := _original_link_method self;
                _hijacked := _hijacked self |}, link) in
  if enabled then _hijack_link_method w' else _restore_link_method w'.

(** [stop_service] (lines 335-341). *)
Definition stop_service {M : Type} (w : world M) : world M :=
  if _hijacked (fst w) then _restore_link_method w else w.

(** What the host does to the plug-in. *)
Inductive host_call : Type :=
| CallInit (config : option bool)
| CallStop.

Definition host_step {M : Type} (c : host_call) (w : world M) : world M :=
  match c with
  | CallInit config => init_plugin config w
  | CallStop => stop_service w
  end.

Definition host_run {M : Type} (cs : list host_call) (w : world M) : world M :=
  fold_left (fun w c => host_step c w) cs w.

(** A call of [LocalStorage.link]: the wrapper sends it to
    [_custom_link_method]; a method of the host is not the plug-in's
    business ([None]). *)
Definition call_link {M FS : Type} (ops : HardLink.fs_ops FS) (w : world M)
    (fileitem_path : option string) (target_file : string) (fs : FS)
  : world M * option (FS * list HardLink.fs_call * bool) :=
  let '(self, link) := w in
  match link with
  | HostLink _ => (w, None)
  | CustomWrapper =>
      match HardLink._custom_link_method ops (_intercept_count self)
              fileitem_path target_file fs with
      | (n, fs', calls, ok) =>
          (({| _enabled := _enabled self; _intercept_count := n;
               _original_link_method := _original_link_method self;
               _hijacked := _hijacked self |}, link),
           Some (fs', calls, ok))
      end
  end.

End Hijack.

(** ** Predicates of the further statements *)

(** A mapping [map_path] can use for the path: both sides present and
    not empty, the local side a prefix of the path. *)
Definition applies (m : mapping) (local_path : string) : option (string * string) :=
  match truthy (m_local m), truthy (m_plex m) with
  | Some lp, Some pp =>
      if PyStr.startswith local_path lp then Some (lp, pp) else None
  | _, _ => None
  end.

(** The length [map_path] holds in [best_prefix_len] for its best pair. *)
Definition held_length (b : option (string * string)) : Z :=
  match b with
  | Some (lp, _) => Z.of_nat (String.length lp)
  | None => -1
  end.

(** Every handle of the timer map is a timer of the heap made for that key. *)
Definition handles_ok (s : sched) : Prop :=
  forall key h, _refresh_timers s !! key = Some h ->
    exists t, heap s !! h = Some t /\ t_key t = key.

(** The plug-in and [LocalStorage.link] fit together, [m] being the
    method of the host: while the hook is installed the class attribute
    is the wrapper, the saved method is [m] and the plug-in is enabled;
    otherwise the class attribute is [m]. *)
Definition hijack_ok {M : Type} (m : M) (w : Hijack.world M) : Prop :=
  if Hijack._hijacked w.1
  then w.2 = Hijack.CustomWrapper
       /\ Hijack._original_link_method w.1 = Some (Hijack.HostLink m)
       /\ Hijack._enabled w.1 = true
  else w.2 = Hijack.HostLink m.


(** A path as [_find_matching_library] compares it: with forward slashes. *)
Definition forward_slashes (s : string) : string :=
  PyStr.replace_char PyStr.backslash PyStr.slash s.

(** The entry [_get_library_info] makes for a [Directory]. *)
Definition library_of (d : directory) : library :=
  {| lib_id := d_key d; lib_type := d_type d; lib_locations := d_locations d |}.

(** [location] is a [Location] of a library of the list, [lib] the pair
    of title and key [_find_matching_library] returns for that library. *)
Definition location_of (info : list (option string * library))
    (lib : option string * option string) (location : string) : Prop :=
  exists name data,
    (name, data) ∈ info /\ lib = (name, lib_id data)
    /\ Some location ∈ lib_locations data.

(** The running best match fits the locations [seen] so far: none of
    them that is a prefix of the target is longer than the length held,
    and the library held has a location that is a prefix of that length. *)
Definition best_fits (target : string)
    (seen : option string * option string -> string -> Prop) (b : best) : Prop :=
  (forall lib loc, seen lib loc ->
     PyStr.startswith target (forward_slashes loc) = true ->
     (String.length (forward_slashes loc) <= max_match_length b)%nat)
  /\ match best_match b with
     | None => max_match_length b = 0%nat
     | Some lib =>
         exists loc, seen lib loc
           /\ PyStr.startswith target (forward_slashes loc) = true
           /\ String.length (forward_slashes loc) = max_match_length b
           /\ (0 < max_match_length b)%nat
     end.

(** An upstream that answers as it should: one library, and 200 to the
    refresh request. *)
Definition up_healthy : upstream :=
  {| up_services := demo_services;
     up_sections := Ret [ {| d_title := Some "TV"; d_key := Some "2";
                             d_type := Some "show";
                             d_locations := [Some "/lib"] |} ];
     up_refresh := Status 200 |}.

(** What happens to the plug-in of [HardLinkJacker]: a call by the host,
    or a call of [LocalStorage.link] made on the file system [fs]. *)
Inductive jack_event (FS : Type) : Type :=
| JHost (c : Hijack.host_call)
| JLink (fileitem_path : option string) (target_file : string) (fs : FS).

Arguments JHost {FS} c.
Arguments JLink {FS} fileitem_path target_file fs.

Definition jack_step {M FS : Type} (ops : HardLink.fs_ops FS)
    (e : jack_event FS) (w : Hijack.world M) : Hijack.world M :=
  match e with
  | JHost c => Hijack.host_step c w
  | JLink fileitem_path target_file fs =>
      (Hijack.call_link ops w fileitem_path target_file fs).1
  end.

Definition jack_run {M FS : Type} (ops : HardLink.fs_ops FS)
    (es : list (jack_event FS)) (w : Hijack.world M) : Hijack.world M :=
  fold_left (fun w e => jack_step ops e w) es w.

(** The calls of [LocalStorage.link] among [es] that come while the
    last call of the host was [init_plugin] with [enabled] true;
    [installed] tells whether that is so before [es]. *)
Fixpoint intercepted {FS : Type} (installed : bool) (es : list (jack_event FS))
  : nat :=
  match es with
  | [] => 0
  | JHost (Hijack.CallInit (Some true)) :: rest => intercepted true rest
  | JHost _ :: rest => intercepted false rest
  | JLink _ _ _ :: rest =>
      ((if installed then 1 else 0) + intercepted installed rest)%nat
  end.

(* ===================================================================== *)
(** * Part II: properties                                                 *)
(* ===================================================================== *)

(** ** The delay setting *)

Lemma clamp_delay_range d : 10 <= clamp_delay d <= 300.
Proof.
  unfold clamp_delay.
  destruct (d <? 10) eqn:Hlo; [lia|].
  destruct (d >? 300) eqn:Hhi; [lia|].
  apply Z.ltb_ge in Hlo. rewrite Z.gtb_ltb in Hhi. apply Z.ltb_ge in Hhi. lia.
Qed.

Lemma clamp_delay_cases d :
  (d < 10 -> clamp_delay d = 10) /\
  (300 < d -> clamp_delay d = 300) /\
  (10 <= d <= 300 -> clamp_delay d = d).
Proof.
  unfold clamp_delay. rewrite Z.gtb_ltb.
  destruct (Z.ltb_spec d 10), (Z.ltb_spec 300 d); repeat split; intros; lia.
Qed.

(** The setting present in a non-empty configuration and accepted by
    [int]: the three clamping cases. *)
Lemma init_plugin_batch_delay_parsed (c : gmap string pyval) old v d :
  c !! "batch_delay" = Some v ->
  PyInt.int v = Ret d ->
  init_plugin_batch_delay (Some c) old = Ret (clamp_delay d).
Proof.
  intros Hv Hd. unfold init_plugin_batch_delay.
  destruct (size c =? 0)%nat eqn:Hsz.
  - apply Nat.eqb_eq in Hsz. apply map_size_empty_inv in Hsz. subst c.
    rewrite lookup_empty in Hv. discriminate.
  - rewrite Hv. simpl. rewrite Hd. reflexivity.
Qed.

(** The setting missing from a non-empty configuration: 60. *)
Lemma init_plugin_batch_delay_missing (c : gmap string pyval) old :
  c <> ∅ ->
  c !! "batch_delay" = None ->
  init_plugin_batch_delay (Some c) old = Ret 60.
Proof.
  intros Hne Hv. unfold init_plugin_batch_delay.
  destruct (size c =? 0)%nat eqn:Hsz.
  - apply Nat.eqb_eq in Hsz. apply map_size_empty_inv in Hsz. contradiction.
  - rewrite Hv. reflexivity.
Qed.

(** The setting rejected by [int] with [ValueError] or [TypeError]: 60. *)
Lemma init_plugin_batch_delay_rejected (c : gmap string pyval) old v :
  c !! "batch_delay" = Some v ->
  PyInt.int v = Raise ValueError \/ PyInt.int v = Raise TypeError ->
  init_plugin_batch_delay (Some c) old = Ret 60.
Proof.
  intros Hv Hd. unfold init_plugin_batch_delay.
  destruct (size c =? 0)%nat eqn:Hsz.
  - apply Nat.eqb_eq in Hsz. apply map_size_empty_inv in Hsz. subst c.
    rewrite lookup_empty in Hv. discriminate.
  - rewrite Hv. simpl. destruct Hd as [-> | ->]; reflexivity.
Qed.

(** [int] raises nothing but [ValueError], [TypeError] and, on an
    infinite float only, [OverflowError]. *)
Lemma int_outcomes v :
  (exists d, PyInt.int v = Ret d) \/
  PyInt.int v = Raise ValueError \/
  PyInt.int v = Raise TypeError \/
  (exists sign, v = PyFloat (S754_infinity sign) /\
                PyInt.int v = Raise OverflowError).
Proof.
  destruct v as [ |b|z|f|s| ]; simpl; eauto.
  - destruct f; simpl; eauto 6.
  - unfold PyInt.of_string.
    match goal with |- context [match ?p with Some _ => _ | None => _ end] =>
      destruct p end; eauto.
Qed.

(** Every value but an infinite float gives a delay between 10 and 300. *)
Lemma init_plugin_batch_delay_total (c : gmap string pyval) old :
  c <> ∅ ->
  (forall sign, c !! "batch_delay" <> Some (PyFloat (S754_infinity sign))) ->
  exists d, init_plugin_batch_delay (Some c) old = Ret d /\ 10 <= d <= 300.
Proof.
  intros Hne Hfin.
  destruct (c !! "batch_delay") as [v|] eqn:Hv.
  - destruct (int_outcomes v) as [[d Hd] | [Hd | [Hd | [sign [-> _]]]]].
    + exists (clamp_delay d). split.
      * eapply init_plugin_batch_delay_parsed; eauto.
      * apply clamp_delay_range.
    + exists 60. split; [|lia]. eapply init_plugin_batch_delay_rejected; eauto.
    + exists 60. split; [|lia]. eapply init_plugin_batch_delay_rejected; eauto.
    + exfalso. eapply Hfin. reflexivity.
  - exists 60. split; [|lia]. apply init_plugin_batch_delay_missing; auto.
Qed.

(** C4 (the case the code misses).  A configuration whose delay is the
    float infinity, for instance the JSON number 1e999: [int] raises
    [OverflowError], which [except (ValueError, TypeError)] does not
    catch.  [init_plugin] ends with that exception and the delay is not
    set to 60 (here it was 100 before the call). *)
Theorem init_plugin_infinite_delay_raises :
  PyInt.int (PyFloat (S754_infinity false)) = Raise OverflowError /\
  init_plugin_batch_delay
    (Some {[ "batch_delay" := PyFloat (S754_infinity false) ]}) 100
  = Raise OverflowError.
Proof. split; reflexivity. Qed.

(** [int] skips the blanks around a number, not the separators 28-31
    that [str.strip] removes: a delay written with one is refused, and
    the delay is 60. *)
Example int_refuses_separator :
  PyInt.int (PyStr (String (ascii_of_nat 28) "12")) = Raise ValueError
  /\ PyInt.int (PyStr (String (ascii_of_nat 9) "12 ")) = Ret 12
  /\ init_plugin_batch_delay
       (Some {[ "batch_delay" := PyStr (String (ascii_of_nat 28) "12") ]}) 100
     = Ret 60.
Proof. repeat split; vm_compute; reflexivity. Qed.

(** ** Strings *)

Lemma replace_char_map a b s :
  list_ascii_of_string (PyStr.replace_char a b s)
  = map (fun c => if Ascii.eqb c a then b else c) (list_ascii_of_string s).
Proof. induction s as [|c s IH]; simpl; [reflexivity | now rewrite IH]. Qed.

Lemma replace_char_removes a b s :
  a <> b -> PyStr.contains_char a (PyStr.replace_char a b s) = false.
Proof.
  intros Hab. induction s as [|c s IH]; simpl; [reflexivity|].
  destruct (Ascii.eqb c a) eqn:Hc.
  - destruct (Ascii.eqb b a) eqn:Hb; [|exact IH].
    apply Ascii.eqb_eq in Hb. congruence.
  - rewrite Hc. exact IH.
Qed.

Lemma replace_char_length a b s :
  String.length (PyStr.replace_char a b s) = String.length s.
Proof. induction s; simpl; congruence. Qed.

Lemma split_on_plain sep w :
  PyStr.contains_char sep w = false -> PyStr.split_on sep w = [w].
Proof.
  induction w as [|c w IH]; simpl; [reflexivity|].
  destruct (Ascii.eqb c sep); [discriminate|].
  intros H. rewrite (IH H). reflexivity.
Qed.

Lemma split_on_cons sep w s :
  PyStr.contains_char sep w = false ->
  PyStr.split_on sep (w ++ String sep s) = w :: PyStr.split_on sep s.
Proof.
  induction w as [|c w IH]; simpl.
  - intros _. rewrite Ascii.eqb_refl. reflexivity.
  - destruct (Ascii.eqb c sep); [discriminate|].
    intros H. rewrite (IH H). reflexivity.
Qed.

Lemma split_on_join comps :
  comps <> [] ->
  Forall (fun w => PyStr.contains_char PyStr.slash w = false) comps ->
  PyStr.split_on PyStr.slash (PyStr.join "/" comps) = comps.
Proof.
  induction comps as [|w ws IH]; [congruence|].
  intros _ Hall. inversion Hall as [|? ? Hw Hws]; subst.
  destruct ws as [|w' ws'].
  - simpl. apply split_on_plain. exact Hw.
  - change (PyStr.join "/" (w :: w' :: ws'))
      with (w ++ String PyStr.slash (PyStr.join "/" (w' :: ws'))).
    rewrite split_on_cons by exact Hw.
    rewrite IH; [reflexivity | congruence | exact Hws].
Qed.

Lemma filter_keeps_all comps :
  Forall component comps ->
  filter (fun w => PosixPath.keeps w = true) comps = comps.
Proof.
  induction 1 as [|w ws [Hk _] _ IH]; [reflexivity|].
  rewrite filter_cons_True by exact Hk. now rewrite IH.
Qed.

Lemma parse_rooted c r :
  Ascii.eqb c PyStr.slash = false ->
  PosixPath.parse (String PyStr.slash (String c r))
  = PosixPath.mk "/"
      (filter (fun w => PosixPath.keeps w = true)
              (PyStr.split_on PyStr.slash (String c r))).
Proof. intros Hc. unfold PosixPath.parse. now rewrite Ascii.eqb_refl, Hc. Qed.

Lemma join_head c w ws :
  exists r, PyStr.join "/" (String c w :: ws) = String c r.
Proof. destruct ws; simpl; eauto. Qed.

(** [Path] leaves an absolute path in normal form as it is. *)
Lemma parse_abs_path comps :
  Forall component comps ->
  PosixPath.parse (abs_path comps) = PosixPath.mk "/" comps.
Proof.
  intros Hall. destruct comps as [|w ws]; [reflexivity|].
  assert (Hsplit : PyStr.split_on PyStr.slash (PyStr.join "/" (w :: ws)) = w :: ws).
  { apply split_on_join; [congruence|].
    eapply Forall_impl; [exact Hall|]. intros ? [_ H]; exact H. }
  inversion Hall as [|? ? [Hk Hs] _]; subst.
  destruct w as [|c w]; [discriminate|].
  simpl in Hs. destruct (Ascii.eqb c PyStr.slash) eqn:Hc; [discriminate|].
  destruct (join_head c w ws) as [r Hr].
  unfold abs_path. rewrite Hr in *.
  change ("/" ++ String c r) with (String PyStr.slash (String c r)).
  rewrite (parse_rooted _ _ Hc), Hsplit.
  now rewrite (filter_keeps_all _ Hall).
Qed.

Lemma to_string_abs comps :
  PosixPath.to_string (PosixPath.mk "/" comps) = abs_path comps.
Proof. reflexivity. Qed.

(** ** The batching key *)

(** What [_get_parent_path] computes when [is_file] returns, whatever
    the form of the path. *)
Lemma _get_parent_path_unfold fs p file :
  is_file fs (PosixPath.parse p) = Ret file ->
  _get_parent_path fs p =
  Ret (PosixPath.to_string
         (if file || has_media_ext (PosixPath.name (PosixPath.parse p))
          then PosixPath.parent (PosixPath.parse p)
          else PosixPath.parse p)).
Proof.
  intros Hf. unfold _get_parent_path. rewrite Hf. cbn [bind].
  destruct (file || has_media_ext (PosixPath.name (PosixPath.parse p))); reflexivity.
Qed.

(** The [OSError] of [is_file] leaves [_get_parent_path], and the two
    callers above it. *)
Lemma _get_parent_path_raises fs p :
  (forall msg, fs (PosixPath.to_string (PosixPath.parse p)) = Refused msg ->
     _get_parent_path fs p = Raise (OSError msg))
  /\ (forall e, _get_parent_path fs p = Raise e ->
        exists msg, e = OSError msg
          /\ fs (PosixPath.to_string (PosixPath.parse p)) = Refused msg).
Proof.
  unfold _get_parent_path, is_file. split.
  - intros msg ->. reflexivity.
  - intros e. destruct (fs _) as [ | | | |msg]; cbn [bind]; try discriminate.
    intros [= <-]. eauto.
Qed.

(** The scenario of the specification: a directory path is its own key. *)
Lemma batching_key_of_directory fs :
  fs "/lib/showB" = Directory ->
  _get_parent_path fs "/lib/showB" = Ret "/lib/showB".
Proof.
  intros Hf. unfold _get_parent_path, is_file.
  change (PosixPath.to_string (PosixPath.parse "/lib/showB")) with "/lib/showB".
  rewrite Hf. reflexivity.
Qed.

(** The key of every path for which [is_file] returns: the parent
    directory when the path is an existing regular file or its last
    component ends in one of the five media extensions, and in every
    other case, a directory or not, the path itself; both in the normal
    form of [Path].  For an absolute path already in normal form these
    are its parent directory and the path as given. *)
Lemma batching_key_by_file_or_extension fs p file :
  is_file fs (PosixPath.parse p) = Ret file ->
  _get_parent_path fs p
  = Ret (PosixPath.to_string
           (if file || has_media_ext (PosixPath.name (PosixPath.parse p))
            then PosixPath.parent (PosixPath.parse p)
            else PosixPath.parse p))
  /\ (forall comps name,
        Forall component (comps ++ [name]) ->
        p = abs_path (comps ++ [name]) ->
        _get_parent_path fs p
        = Ret (if file || has_media_ext name then abs_path comps else p)).
Proof.
  intros Hf. split; [now apply _get_parent_path_unfold|].
  intros comps name Hall ->. unfold _get_parent_path. rewrite Hf. cbn [bind].
  rewrite (parse_abs_path _ Hall).
  unfold PosixPath.name, PosixPath.parent.
  cbn [PosixPath.parts PosixPath.root].
  rewrite to_string_abs, List.last_last, List.removelast_last.
  destruct (_ || _); reflexivity.
Qed.

(** The scenario of the specification: two episodes of one season have
    the season directory as their key. *)
Example batching_key_of_episodes :
  _get_parent_path no_files "/lib/showA/s01/e01.mkv" = Ret "/lib/showA/s01"
  /\ _get_parent_path no_files "/lib/showA/s01/e02.mkv" = Ret "/lib/showA/s01"
  /\ _get_parent_path no_files "/lib/showB/" = Ret "/lib/showB".
Proof. repeat split. Qed.

(** C5 (the case the code misses).  The comment above the test says
    that a video file gives its parent directory and a directory
    itself.  The test knows a video file by [is_file] on the host or by
    one of five extensions: an episode [e01.wmv] that the host does not
    hold (the path is a path of the Plex server) is no directory, yet
    its key is the path itself and not the directory of the season,
    which is the key of the same episode as [e01.mkv]. *)
Theorem batching_key_not_always_parent :
  no_files "/lib/showA/s01/e01.wmv" = NoEntry /\
  is_dir no_files (PosixPath.parse "/lib/showA/s01/e01.wmv") = false /\
  spec_batching_key no_files "/lib/showA/s01/e01.wmv" = "/lib/showA/s01" /\
  _get_parent_path no_files "/lib/showA/s01/e01.wmv"
  = Ret "/lib/showA/s01/e01.wmv" /\
  _get_parent_path no_files "/lib/showA/s01/e01.mkv" = Ret "/lib/showA/s01".
Proof. repeat split; reflexivity. Qed.

(** ** The path mapping and the event handler *)

Lemma truthy_Some o s : truthy o = Some s -> o = Some s /\ s <> EmptyString.
Proof.
  destruct o as [t|]; simpl; [|discriminate].
  destruct (String.eqb t EmptyString) eqn:He; [discriminate|].
  intros [= ->]. split; [reflexivity|].
  intros ->. discriminate.
Qed.

(** The pair chosen by [map_path] is one whose local prefix starts the
    path and whose two sides are not empty. *)
Lemma best_mapping_sound maps local_path best best_len lp pp :
  best_mapping maps local_path best best_len = Some (lp, pp) ->
  best = Some (lp, pp) \/
  (PyStr.startswith local_path lp = true /\ lp <> EmptyString /\ pp <> EmptyString).
Proof.
  revert best best_len.
  induction maps as [|m rest IH]; intros best best_len; simpl; [auto|].
  destruct (truthy (m_local m)) as [l|] eqn:Hl; [|apply IH].
  destruct (truthy (m_plex m)) as [q|] eqn:Hq; [|apply IH].
  destruct (PyStr.startswith local_path l
            && (best_len <? Z.of_nat (String.length l))) eqn:Hc; [|apply IH].
  intros H. destruct (IH _ _ H) as [[= -> ->] | ?]; [|auto].
  right. apply andb_true_iff in Hc as [Hp _].
  apply truthy_Some in Hl as [_ Hl]. apply truthy_Some in Hq as [_ Hq]. auto.
Qed.

Lemma replace_first_prefix old new s :
  String.prefix old s = true ->
  PyStr.replace_first old new s = new ++ PyStr.drop_str (String.length old) s.
Proof.
  intros H. destruct s as [|c s].
  - destruct old; [reflexivity | discriminate].
  - cbn [PyStr.replace_first]. now rewrite H.
Qed.

Lemma map_path_not_empty self local_path mapped :
  map_path self local_path = Some mapped -> truthy (Some mapped) = Some mapped.
Proof.
  unfold map_path.
  destruct (best_mapping _ _ _ _) as [[lp pp]|] eqn:Hb; [|discriminate].
  intros [= <-].
  destruct (best_mapping_sound _ _ _ _ _ _ Hb) as [? | (Hp & _ & Hpp)];
    [discriminate|].
  unfold PyStr.startswith in Hp. rewrite (replace_first_prefix _ _ _ Hp).
  destruct pp; [congruence | reflexivity].
Qed.

(** C10.  An event that passes the guards of [refresh] and whose path is
    mapped to [mapped] schedules [normalize_plex_path mapped]: when
    [mapped] holds a backslash, every forward slash has become a
    backslash and no other character has changed; when it holds none,
    the path is [mapped] itself.  The path that is scheduled, and the
    key it is batched under, are those of the normalized path: when
    [_get_parent_path] returns a key for it, the path has joined the
    pending set of that key; when [_get_parent_path] raises, so does
    [refresh]. *)
Theorem refresh_schedules_normalized_path
    fs self services inst local_path mapped s :
  _enabled self = true ->
  plex_service self services = Some inst ->
  String.eqb local_path EmptyString = false ->
  map_path self local_path = Some mapped ->
  let plex_path := normalize_plex_path mapped in
  refresh fs self services (Some (Some local_path)) s
  = _schedule_batch_refresh fs self plex_path s
  /\ (PyStr.contains_char PyStr.backslash mapped = true ->
      list_ascii_of_string plex_path
      = map (fun c => if Ascii.eqb c PyStr.slash then PyStr.backslash else c)
            (list_ascii_of_string mapped)
      /\ PyStr.contains_char PyStr.slash plex_path = false)
  /\ (PyStr.contains_char PyStr.backslash mapped = false -> plex_path = mapped)
  /\ (forall key, _get_parent_path fs plex_path = Ret key ->
      exists s',
        refresh fs self services (Some (Some local_path)) s = Ret s'
        /\ _pending_refreshes s' !! key
           = Some ({[plex_path]} ∪ default ∅ (_pending_refreshes s !! key)))
  /\ (forall e, _get_parent_path fs plex_path = Raise e ->
      refresh fs self services (Some (Some local_path)) s = Raise e).
Proof.
  intros Hen Hsvc Hlp Hmap plex_path.
  assert (Href : refresh_target self services (Some (Some local_path))
                 = Some plex_path).
  { unfold refresh_target. rewrite Hen, Hsvc. simpl. rewrite Hlp, Hmap.
    now rewrite (map_path_not_empty _ _ _ Hmap). }
  assert (Heq : refresh fs self services (Some (Some local_path)) s
                = _schedule_batch_refresh fs self plex_path s).
  { unfold refresh. now rewrite Href. }
  split; [exact Heq|]. split; [|split; [|split]].
  - intros Hb. subst plex_path. unfold normalize_plex_path. rewrite Hb. split.
    + apply replace_char_map.
    + apply replace_char_removes. discriminate.
  - intros Hb. subst plex_path. unfold normalize_plex_path. now rewrite Hb.
  - intros key Hkey. rewrite Heq. unfold _schedule_batch_refresh.
    rewrite Hkey. cbn [bind]. eexists. split; [reflexivity|].
    unfold schedule_key. cbn [_pending_refreshes]. apply lookup_insert_eq.
  - intros e Hkey. rewrite Heq. unfold _schedule_batch_refresh.
    now rewrite Hkey.
Qed.

(** The theorem on an event for [/files1/show/e01.mkv], mapped to a
    Windows path. *)
Lemma refresh_schedules_normalized_path_witness :
  let plex_path := normalize_plex_path "E:\videos/show/e01.mkv" in
  refresh no_files demo_plugin demo_services
    (Some (Some "/files1/show/e01.mkv")) init_sched
  = _schedule_batch_refresh no_files demo_plugin plex_path init_sched
  /\ (PyStr.contains_char PyStr.backslash "E:\videos/show/e01.mkv" = true ->
      list_ascii_of_string plex_path
      = map (fun c => if Ascii.eqb c PyStr.slash then PyStr.backslash else c)
            (list_ascii_of_string "E:\videos/show/e01.mkv")
      /\ PyStr.contains_char PyStr.slash plex_path = false)
  /\ (PyStr.contains_char PyStr.backslash "E:\videos/show/e01.mkv" = false ->
      plex_path = "E:\videos/show/e01.mkv")
  /\ (forall key, _get_parent_path no_files plex_path = Ret key ->
      exists s',
        refresh no_files demo_plugin demo_services
          (Some (Some "/files1/show/e01.mkv")) init_sched = Ret s'
        /\ _pending_refreshes s' !! key
           = Some ({[plex_path]}
                   ∪ default ∅ (_pending_refreshes init_sched !! key)))
  /\ (forall e, _get_parent_path no_files plex_path = Raise e ->
      refresh no_files demo_plugin demo_services
        (Some (Some "/files1/show/e01.mkv")) init_sched = Raise e).
Proof.
  apply (refresh_schedules_normalized_path no_files demo_plugin demo_services
           demo_service "/files1/show/e01.mkv" "E:\videos/show/e01.mkv" init_sched);
    reflexivity.
Defined.

(** On the POSIX host a normalized Windows path has one component only:
    every such media file is batched under the key [.]. *)
Example windows_path_key :
  normalize_plex_path "E:\videos/show/e01.mkv" = "E:\videos\show\e01.mkv" /\
  _get_parent_path no_files "E:\videos\show\e01.mkv" = Ret ".".
Proof. split; reflexivity. Qed.

(** ** The replacement link operation *)

Section HardLinkFacts.

Context {FS : Type} (ops : HardLink.fs_ops FS).

Import HardLink.

Lemma link_body_catches src dest fs :
  match link_body ops src dest fs with
  | (_, _, Ret _) => snd (_custom_link_logic ops src dest fs) = (0, EmptyString)
  | (_, _, Raise err) =>
      snd (_custom_link_logic ops src dest fs) = (-1, fail_prefix ++ exn_str err)
  end.
Proof.
  unfold _custom_link_logic.
  destruct (link_body ops src dest fs) as [[fs' calls] [u|err]]; reflexivity.
Qed.

(** The calls made, in order: [exists], then [unlink] exactly when
    [exists] answered true, then [hardlink_to]; the sequence stops at
    the first call that raises. *)
Lemma link_calls_shape src dest fs :
  let calls := snd (fst (_custom_link_logic ops src dest fs)) in
  (path_exists ops dest fs = Ret true ->
   exists k, calls = take k [CallExists dest; CallUnlink dest; CallHardlinkTo dest src]
             /\ (2 <= k)%nat)
  /\ (path_exists ops dest fs = Ret false ->
      calls = [CallExists dest; CallHardlinkTo dest src])
  /\ (forall e, path_exists ops dest fs = Raise e -> calls = [CallExists dest]).
Proof.
  unfold _custom_link_logic, link_body. cbv zeta.
  destruct (path_exists ops dest fs) as [[|]|e].
  - split; [|split]; try discriminate. intros _.
    destruct (path_unlink ops dest fs) as [fs1|e1].
    + exists 3%nat. split; [|lia].
      destruct (path_hardlink_to ops dest src fs1); reflexivity.
    + exists 2%nat. split; [reflexivity | lia].
  - split; [|split]; try discriminate. intros _.
    destruct (path_hardlink_to ops dest src fs); reflexivity.
  - split; [|split]; try discriminate. intros e' _. reflexivity.
Qed.

Lemma custom_link_method_reports n p dest fs :
  truthy (Some p) = Some p ->
  _custom_link_method ops n (Some p) dest fs =
  let '(fs', calls, (code, _)) :=
    _custom_link_logic ops (PosixPath.to_string (PosixPath.parse p)) dest fs in
  (S n, fs', calls, code =? 0).
Proof.
  intros Hp. unfold _custom_link_method. rewrite Hp.
  destruct (_custom_link_logic ops _ dest fs) as [[fs' calls] [code message]].
  reflexivity.
Qed.

End HardLinkFacts.

(** C9.  [_custom_link_logic] asks whether [dest] exists, unlinks it
    exactly when it does, and then creates the hard link; when all
    calls return, the code is 0 with an empty message, the last call is
    the [hardlink_to] that returned, and [_custom_link_method] reports
    true; when a call raises, the code is -1 with a message made of the
    prefix and the text of the exception, and [_custom_link_method]
    reports false.  On the file system in memory: with [src] a file
    and different from [dest], [dest] names the inode of [src]
    afterwards, whether it was a file before or did not exist; a
    directory at [dest] is not unlinked: the code is -1 and the file
    system is as it was. *)
Theorem custom_link_is_unlink_then_hardlink :
  (forall (FS : Type) (ops : HardLink.fs_ops FS) (src dest : string) (fs : FS),
     let '(fs', calls, (code, message)) :=
       HardLink._custom_link_logic ops src dest fs in
     (* the order of the calls *)
     (In (HardLink.CallUnlink dest) calls
      <-> HardLink.path_exists ops dest fs = Ret true)
     /\ (exists k, calls = take k [HardLink.CallExists dest;
                                   HardLink.CallUnlink dest;
                                   HardLink.CallHardlinkTo dest src]
                   \/ calls = take k [HardLink.CallExists dest;
                                      HardLink.CallHardlinkTo dest src])
     (* success *)
     /\ (code = 0 ->
         message = EmptyString
         /\ List.last calls (HardLink.CallExists dest)
            = HardLink.CallHardlinkTo dest src
         /\ exists fs0, HardLink.path_hardlink_to ops dest src fs0 = Ret fs')
     (* failure *)
     /\ (code <> 0 ->
         code = -1
         /\ exists err, message = HardLink.fail_prefix ++ HardLink.exn_str err)
     (* the method *)
     /\ (forall n p, truthy (Some p) = Some p ->
         PosixPath.to_string (PosixPath.parse p) = src ->
         HardLink._custom_link_method ops n (Some p) dest fs
         = (S n, fs', calls, code =? 0))
     /\ (forall n, HardLink._custom_link_method ops n None dest fs
                   = (S n, fs, [], false)))
  /\ (forall (fs : HardLink.memfs) (src dest : string) (ino : nat),
        too_long src = false -> too_long dest = false ->
        fs !! src = Some (HardLink.File ino) -> src <> dest ->
        (fs !! dest <> Some HardLink.Dir ->
         exists fs' calls,
           HardLink._custom_link_logic HardLink.mem_ops src dest fs
           = (fs', calls, (0, EmptyString))
           /\ fs' !! dest = Some (HardLink.File ino)
           /\ fs' !! src = Some (HardLink.File ino))
        /\ (fs !! dest = Some HardLink.Dir ->
            HardLink._custom_link_logic HardLink.mem_ops src dest fs
            = (fs, [HardLink.CallExists dest; HardLink.CallUnlink dest],
               (-1, HardLink.fail_prefix
                    ++ HardLink.exn_str (HardLink.EISDIR dest))))).
Proof.
  split.
  - intros FS ops src dest fs.
    pose proof (fun n p => custom_link_method_reports ops n p dest fs) as Hm.
    destruct (HardLink._custom_link_logic ops src dest fs)
      as [[fs' calls] [code message]] eqn:E.
    assert (Hmeth : forall n p, truthy (Some p) = Some p ->
              PosixPath.to_string (PosixPath.parse p) = src ->
              HardLink._custom_link_method ops n (Some p) dest fs
              = (S n, fs', calls, code =? 0)).
    { intros n p Hp Hsrc. rewrite (Hm n p Hp), Hsrc, E. reflexivity. }
    clear Hm.
    unfold HardLink._custom_link_logic, HardLink.link_body in E.
    destruct (HardLink.path_exists ops dest fs) as [[|]|e] eqn:Hex.
    + destruct (HardLink.path_unlink ops dest fs) as [fs1|e1] eqn:Hun.
      * destruct (HardLink.path_hardlink_to ops dest src fs1) as [fs2|e2] eqn:Hl;
          injection E as <- <- <- <-;
          (repeat split; simpl; try tauto; try congruence; try lia; eauto;
           exists 3%nat; left; reflexivity).
      * injection E as <- <- <- <-.
        repeat split; simpl; try tauto; try congruence; try lia; eauto.
        exists 2%nat. left. reflexivity.
    + destruct (HardLink.path_hardlink_to ops dest src fs) as [fs2|e2] eqn:Hl;
        injection E as <- <- <- <-;
        (repeat split; simpl; try congruence; try lia; eauto;
         [ intros [H|[H|[]]]; discriminate
         | exists 2%nat; right; reflexivity ]).
    + injection E as <- <- <- <-.
      repeat split; simpl; try congruence; try lia; eauto.
      * intros [H|[]]; discriminate.
      * exists 1%nat. left. reflexivity.
  - intros fs src dest ino Hls Hld Hsrc Hne.
    unfold HardLink._custom_link_logic, HardLink.link_body, HardLink.mem_ops.
    cbn [HardLink.path_exists HardLink.path_unlink HardLink.path_hardlink_to].
    rewrite Hls, Hld. cbn [orb]. unfold has_key.
    destruct (fs !! dest) as [[old|]|] eqn:Hd.
    + split; [intros _ | discriminate].
      rewrite lookup_delete_ne by congruence. rewrite Hsrc, lookup_delete_eq.
      do 2 eexists. split; [reflexivity|].
      rewrite lookup_insert_eq, lookup_insert_ne, lookup_delete_ne by congruence.
      auto.
    + split; [congruence | intros _; reflexivity].
    + split; [intros _ | discriminate].
      rewrite Hsrc.
      do 2 eexists. split; [reflexivity|].
      rewrite lookup_insert_eq, lookup_insert_ne by congruence. auto.
Qed.

(** ** The batch outside the lock: the fallback *)

Lemma refresh_each_attempts self ups paths :
  attempts (refresh_each self ups paths) = paths.
Proof.
  induction paths as [|p rest IH]; simpl; [reflexivity|].
  destruct (_refresh_plex_path_http self (ups p) p); simpl; now rewrite IH.
Qed.

Lemma refresh_each_paced self ups paths :
  paced (refresh_each self ups paths) = true.
Proof.
  induction paths as [|p rest IH]; simpl; [reflexivity|].
  destruct (_refresh_plex_path_http self (ups p) p); simpl; exact IH.
Qed.

(** The outcome recorded for a path is the outcome of the call for it. *)
Lemma refresh_each_outcomes self ups paths p r :
  In (Refresh p r) (refresh_each self ups paths) ->
  In p paths /\ r = _refresh_plex_path_http self (ups p) p.
Proof.
  induction paths as [|q rest IH]; simpl; [tauto|].
  destruct (_refresh_plex_path_http self (ups q) q) eqn:Hq; simpl;
    intros [H | [H | H]]; try discriminate;
    try (injection H as <- <-; auto);
    destruct (IH H); auto.
Qed.

(** With no exception, the sleeps do separate the attempts. *)
Lemma refresh_each_sleep_between self ups paths :
  Forall (fun p => raises (_refresh_plex_path_http self (ups p) p) = false) paths ->
  sleep_between false (refresh_each self ups paths) = true.
Proof.
  induction 1 as [|p rest Hp _ IH]; simpl; [reflexivity|].
  destruct (_refresh_plex_path_http self (ups p) p); [exact IH | discriminate].
Qed.

(** An attempt that raises is followed by the next attempt at once:
    the sleep stands inside the [try], after the call. *)
Lemma refresh_each_sleep_skipped self ups p q rest e :
  _refresh_plex_path_http self (ups p) p = Raise e ->
  exists tail,
    refresh_each self ups (p :: q :: rest)
    = Refresh p (Raise e) :: Log Error
        :: Refresh q (_refresh_plex_path_http self (ups q) q) :: tail
    /\ sleep_between false (refresh_each self ups (p :: q :: rest)) = false.
Proof.
  intros Hp. cbn [refresh_each]. rewrite Hp.
  destruct (_refresh_plex_path_http self (ups q) q); eexists; split; reflexivity.
Qed.

(** When the batched call for the key returns failure, the fallback
    makes exactly one attempt for each path of the captured set, one
    after the other, in the order in which the loop meets the set; each
    attempt that returns, with success or with failure, is followed by
    a sleep of one second; an attempt that raises is logged; and
    whatever the attempts do, the batch ends without an exception. *)
Lemma fallback_attempts_each_path_once
    self up ups (order : set_order) parent_path paths :
  paths <> ∅ ->
  _refresh_plex_path_http self up parent_path = Ret false ->
  exists fallback,
    process_batch self up ups order parent_path paths
    = (Ret tt, Log Info :: Refresh parent_path (Ret false) :: Log Warning
               :: fallback)
    /\ attempts fallback = order paths
    /\ NoDup (attempts fallback)
    /\ (forall p, In p (attempts fallback) <-> p ∈ paths)
    /\ (forall p r, In (Refresh p r) fallback ->
                    r = _refresh_plex_path_http self (ups p) p)
    /\ paced fallback = true.
Proof.
  intros Hne Hfail. exists (refresh_each self ups (order paths)).
  unfold process_batch. rewrite decide_False by exact Hne. rewrite Hfail.
  rewrite refresh_each_attempts.
  split; [reflexivity|]. split; [reflexivity|].
  split; [rewrite (iter_perm order paths); apply NoDup_elements|].
  split.
  { intros p. rewrite <- list_elem_of_In, (iter_perm order paths).
    apply elem_of_elements. }
  split; [intros p r H; eapply refresh_each_outcomes; exact H|].
  apply refresh_each_paced.
Qed.

(** C3 (the case the code misses).  The batched call fails and the
    single calls raise (the library list the server then gives holds a
    [Location] without [path]): in whichever order the loop meets the
    two paths, both attempts are made and no sleep comes between them,
    nor anywhere else.  [time.sleep(1)], there to keep the requests
    apart, stands inside the [try] after the call, so an attempt that
    raises skips it. *)
Theorem fallback_no_sleep_after_exception (order : set_order) :
  let batch : gset string := {[ "/lib/showA/e01.mkv"; "/lib/showA/e02.mkv" ]} in
  let effects :=
    snd (process_batch demo_plugin up_unreachable (fun _ => up_malformed)
           order "/lib/showA" batch) in
  exists p q,
    order batch = [p; q]
    /\ effects
       = [ Log Info; Refresh "/lib/showA" (Ret false); Log Warning;
           Refresh p (Raise AttributeError); Log Error;
           Refresh q (Raise AttributeError); Log Error ]
    /\ attempts (drop 3 effects) = [p; q]
    /\ sleep_between false (drop 3 effects) = false
    /\ Forall (fun eff => forall n, eff <> Sleep n) effects.
Proof.
  cbv zeta.
  set (batch := ({[ "/lib/showA/e01.mkv"; "/lib/showA/e02.mkv" ]} : gset string)).
  assert (Hel : elements batch = ["/lib/showA/e01.mkv"; "/lib/showA/e02.mkv"])
    by (vm_compute; reflexivity).
  assert (Hne : batch <> ∅).
  { intros He. apply (f_equal elements) in He. rewrite Hel in He.
    vm_compute in He. discriminate He. }
  assert (Hord : order batch = ["/lib/showA/e01.mkv"; "/lib/showA/e02.mkv"]
                 \/ order batch = ["/lib/showA/e02.mkv"; "/lib/showA/e01.mkv"]).
  { pose proof (iter_perm order batch) as Hp. rewrite Hel in Hp.
    symmetry in Hp. now apply Permutation_length_2_inv in Hp. }
  unfold process_batch. rewrite decide_False by exact Hne.
  change (_refresh_plex_path_http demo_plugin up_unreachable "/lib/showA")
    with (Ret false (A := bool)).
  cbn [snd].
  destruct Hord as [-> | ->]; do 2 eexists;
    (split; [reflexivity|]); (split; [reflexivity|]);
    (split; [reflexivity|]); (split; [reflexivity|]);
    repeat constructor; discriminate.
Qed.

(** Which attempt raises decides whether the requests are kept apart:
    when the single call for the first episode raises and the one for
    the second returns, the two attempts follow each other without a
    sleep if the loop meets the first episode first, and with one if
    it meets the second first. *)
Example fallback_sleep_depends_on_order :
  sleep_between false
    (drop 3 (snd (process_batch demo_plugin up_unreachable demo_ups first_order
                    "/lib/showA"
                    {[ "/lib/showA/e01.mkv"; "/lib/showA/e02.mkv" ]})))
  = false
  /\ sleep_between false
       (drop 3 (snd (process_batch demo_plugin up_unreachable demo_ups second_order
                       "/lib/showA"
                       {[ "/lib/showA/e01.mkv"; "/lib/showA/e02.mkv" ]})))
     = true.
Proof. split; vm_compute; reflexivity. Qed.

(** ** Exceptions of the refresh call *)

Lemma dict_set_located k (v : library) d :
  located v -> Forall (fun kv => located kv.2) d ->
  Forall (fun kv => located kv.2) (dict_set k v d).
Proof.
  intros Hv. induction 1 as [|[k' v'] d' Hkv Hd IH]; simpl.
  - repeat constructor. exact Hv.
  - destruct (decide (k = k')); constructor; simpl; auto.
Qed.

Lemma _get_library_info_located up :
  (forall dirs, up_sections up = Ret dirs ->
     Forall (fun d => Forall (fun l : option string => l <> None) (d_locations d)) dirs) ->
  Forall (fun kv => located kv.2) (_get_library_info up).
Proof.
  intros Hwf. unfold _get_library_info.
  destruct (up_sections up) as [dirs|e]; [|constructor].
  specialize (Hwf dirs eq_refl).
  assert (Hgen : forall acc, Forall (fun kv : option string * library => located kv.2) acc ->
            Forall (fun kv => located kv.2)
              (fold_left (fun info d =>
                 dict_set (d_title d)
                   {| lib_id := d_key d; lib_type := d_type d;
                      lib_locations := d_locations d |} info) dirs acc)).
  { induction Hwf as [|d ds Hd _ IH]; intros acc Hacc; simpl; [exact Hacc|].
    apply IH. apply dict_set_located; [exact Hd | exact Hacc]. }
  apply Hgen. constructor.
Qed.

Lemma scan_locations_returns target lib locs b :
  Forall (fun l : option string => l <> None) locs ->
  exists b', scan_locations target lib locs b = Ret b'.
Proof.
  intros H. revert b. induction H as [|l ls Hl _ IH]; intros b; simpl; [eauto|].
  destruct l as [loc|]; [|congruence].
  destruct (_ && _); apply IH.
Qed.

Lemma scan_libraries_returns target info b :
  Forall (fun kv => located kv.2) info ->
  exists b', scan_libraries target info b = Ret b'.
Proof.
  intros H. revert b. induction H as [|[k v] rest Hv _ IH]; intros b; simpl; [eauto|].
  destruct (scan_locations_returns target (k, lib_id v) (lib_locations v) b Hv)
    as [b' ->].
  simpl. apply IH.
Qed.

(** When every [Location] of the answer has its [path], the refresh call
    returns a boolean. *)
Lemma _refresh_plex_path_http_returns self up target_path :
  (forall dirs, up_sections up = Ret dirs ->
     Forall (fun d => Forall (fun l : option string => l <> None) (d_locations d)) dirs) ->
  exists b, _refresh_plex_path_http self up target_path = Ret b.
Proof.
  intros Hwf. unfold _refresh_plex_path_http.
  destruct (_get_plex_connection_info self up); [|eauto].
  pose proof (_get_library_info_located up Hwf) as Hloc.
  destruct (_get_library_info up) as [|kv info]; [eauto|].
  unfold _find_matching_library.
  destruct (scan_libraries_returns
              (PyStr.replace_char PyStr.backslash PyStr.slash target_path)
              (kv :: info) {| best_match := None; max_match_length := 0 |} Hloc)
    as [b' ->].
  simpl. destruct (best_match b'); eauto.
Qed.

(** C8 (the case the code misses).  The library list holds a [Location]
    element without [path]: [_find_matching_library] calls [replace] on
    [None], the [AttributeError] leaves [_refresh_plex_path_http], and
    the batched call of [_execute_batch_refresh], which stands outside
    any [try], lets it leave the deferred call. *)
Theorem batched_refresh_raises_on_malformed_library_list (order : set_order) :
  _refresh_plex_path_http demo_plugin up_malformed "/lib/showA"
  = Raise AttributeError
  /\ _schedule_batch_refresh no_files demo_plugin "/lib/showA/e01.mkv" init_sched
     = Ret one_scheduled
  /\ snd (_execute_batch_refresh demo_plugin up_malformed demo_ups order
            "/lib/showA" one_scheduled)
     = (Raise AttributeError,
        [Log Info; Refresh "/lib/showA" (Raise AttributeError)]).
Proof. repeat split; vm_compute; reflexivity. Qed.

(** The event handler has a way out of its own: the directory of the
    event has a name of 250 bytes and the mapping leads to a Windows
    path, which on the host of the plug-in is one single name, longer
    than the file system takes.  [is_file] lets the [OSError] of the
    operating system through, [_get_parent_path] and
    [_schedule_batch_refresh] call outside any [try], and the exception
    leaves [refresh]; nothing is scheduled. *)
Example refresh_raises_on_name_too_long :
  let local_path :=
    "/files1/" ++ string_of_list_ascii (repeat "a"%char 250) ++ "/e01.mkv" in
  let plex_path :=
    "E:\videos\" ++ string_of_list_ascii (repeat "a"%char 250) ++ "\e01.mkv" in
  refresh_target demo_plugin demo_services (Some (Some local_path))
  = Some plex_path
  /\ String.length plex_path = 268%nat
  /\ PosixPath.parts (PosixPath.parse plex_path) = [plex_path]
  /\ exists msg,
       _get_parent_path no_files plex_path = Raise (OSError msg)
       /\ refresh no_files demo_plugin demo_services (Some (Some local_path))
            init_sched
          = Raise (OSError msg).
Proof.
  cbv zeta. split; [vm_compute; reflexivity|].
  split; [vm_compute; reflexivity|]. split; [vm_compute; reflexivity|].
  eexists. split; vm_compute; reflexivity.
Qed.

(** ** The two maps *)

Lemma maps_agree_init : maps_agree init_sched.
Proof. split; [reflexivity|]. intros key paths H. simpl in H. now rewrite lookup_empty in H. Qed.

Lemma maps_agree_schedule delay parent_path plex_path s :
  maps_agree s -> maps_agree (schedule_key delay parent_path plex_path s).
Proof.
  intros [Hdom Hne]. split; simpl.
  - rewrite !dom_insert_L, Hdom. reflexivity.
  - intros key paths. rewrite lookup_insert. case_decide.
    + intros [= <-] Hempty.
      apply (not_elem_of_empty (C := gset string) plex_path).
      rewrite <- Hempty. apply elem_of_union_l. now apply elem_of_singleton.
    + apply Hne.
Qed.

Lemma maps_agree_take_batch parent_path s :
  maps_agree s -> maps_agree (take_batch parent_path s).1.
Proof.
  intros [Hdom Hne]. unfold take_batch.
  destruct (_pending_refreshes s !! parent_path); [|split; assumption].
  split; simpl.
  - rewrite !dom_delete_L, Hdom. reflexivity.
  - intros key paths. rewrite lookup_delete. case_decide; [discriminate|]. apply Hne.
Qed.

Lemma maps_agree_stop s : maps_agree (stop_service s).
Proof.
  split; simpl; [now rewrite !dom_empty_L|].
  intros key paths H. now rewrite lookup_empty in H.
Qed.

Lemma maps_agree_wake i s : maps_agree s -> maps_agree (timer_wake i s).
Proof.
  intros H. unfold timer_wake.
  destruct (heap s !! i) as [t|]; [|exact H].
  destruct (t_phase t); try exact H.
  destruct (t_cancelled t); [exact H|].
  destruct (t_deadline t <=? clock s); exact H.
Qed.

Lemma maps_agree_call i s : maps_agree s -> maps_agree (timer_call i s).
Proof.
  intros H. unfold timer_call.
  destruct (heap s !! i) as [t|]; [|exact H].
  destruct (t_phase t); try exact H.
  pose proof (maps_agree_take_batch (t_key t) s H) as H'.
  destruct (take_batch (t_key t) s) as [s' batch]. exact H'.
Qed.

(** A call of [schedule] leaves the state as it was (the key could
    not be computed) or runs its critical section for some key. *)
Lemma schedule_outcome fs self plex_path s :
  (exists e, _get_parent_path fs plex_path = Raise e
     /\ _schedule_batch_refresh fs self plex_path s = Raise e
     /\ state_after (_schedule_batch_refresh fs self plex_path s) s = s)
  \/ (exists key, _get_parent_path fs plex_path = Ret key
       /\ _schedule_batch_refresh fs self plex_path s
          = Ret (schedule_key (_batch_delay self) key plex_path s)
       /\ state_after (_schedule_batch_refresh fs self plex_path s) s
          = schedule_key (_batch_delay self) key plex_path s).
Proof.
  unfold _schedule_batch_refresh.
  destruct (_get_parent_path fs plex_path) as [key|e]; cbn; eauto 6.
Qed.

Lemma maps_agree_step a s : maps_agree s -> maps_agree (step a s).
Proof.
  destruct a as [fs self plex_path| | | | | ]; simpl; intros H.
  - destruct (schedule_outcome fs self plex_path s)
      as [(e & _ & _ & ->) | (key & _ & _ & ->)];
      [exact H | now apply maps_agree_schedule].
  - now apply maps_agree_take_batch.
  - apply maps_agree_stop.
  - now apply maps_agree_wake.
  - now apply maps_agree_call.
  - exact H.
Qed.

Lemma reachable_maps_agree s : reachable s -> maps_agree s.
Proof.
  induction 1 as [|a s _ IH]; [apply maps_agree_init | now apply maps_agree_step].
Qed.

(** ** The lock *)

Lemma run_schedule_prims delay parent_path plex_path s :
  run (schedule_prims delay parent_path plex_path s) s
  = schedule_key delay parent_path plex_path s.
Proof.
  unfold schedule_prims, schedule_key, has_key, run.
  destruct (_refresh_timers s !! parent_path) as [h|] eqn:Hh; simpl;
    rewrite ?Hh; simpl; try rewrite length_alter; reflexivity.
Qed.

Lemma run_fire_prims parent_path s :
  run (fire_prims parent_path s) s = (take_batch parent_path s).1.
Proof.
  unfold fire_prims, take_batch, has_key, run.
  destruct (_pending_refreshes s !! parent_path) as [paths|] eqn:Hp; simpl.
  - destruct (_refresh_timers s !! parent_path) as [h|] eqn:Hh; simpl;
      [reflexivity|].
    now rewrite (delete_id _ _ Hh).
  - now destruct s.
Qed.

Lemma run_stop_prims s : run stop_prims s = stop_service s.
Proof. reflexivity. Qed.

Lemma lock_ok_prims o s : lock_ok false (prims_of o s) = true.
Proof.
  destruct o as [delay parent_path plex_path | parent_path | ]; simpl;
    [ unfold schedule_prims | unfold fire_prims | reflexivity ].
  - destruct (has_key (_refresh_timers s) parent_path); reflexivity.
  - destruct (has_key (_pending_refreshes s) parent_path); [|reflexivity].
    destruct (has_key (_refresh_timers s) parent_path); reflexivity.
Qed.

Lemma has_key_agree s key :
  maps_agree s ->
  has_key (_pending_refreshes s) key = has_key (_refresh_timers s) key.
Proof.
  intros [Hdom _]. unfold has_key.
  assert (H : key ∈ dom (_pending_refreshes s) <-> key ∈ dom (_refresh_timers s))
    by now rewrite Hdom.
  rewrite !elem_of_dom in H.
  destruct (_pending_refreshes s !! key), (_refresh_timers s !! key);
    try reflexivity; exfalso.
  - destruct H as [H _]. destruct H; eauto. discriminate.
  - destruct H as [_ H]. destruct H; eauto. discriminate.
Qed.

Lemma prims_change_both o s :
  maps_agree s ->
  existsb changes_pending (prims_of o s) = existsb changes_timers (prims_of o s).
Proof.
  intros Hag.
  destruct o as [delay parent_path plex_path | parent_path | ]; simpl;
    [ unfold schedule_prims | unfold fire_prims | reflexivity ].
  - destruct (has_key (_refresh_timers s) parent_path); reflexivity.
  - rewrite (has_key_agree s parent_path Hag).
    destruct (has_key (_refresh_timers s) parent_path); reflexivity.
Qed.

(** C2.  In every state reached by any interleaving of the operations
    (and of the steps of the timer threads) the two maps have the same
    keys and no pending set is empty.  Each of the three operations that
    touch the maps is a sequence of statements run between one
    acquisition and one release of the lock, changing either both maps
    or none, and it leads to a state where the maps agree again. *)
Theorem maps_agree_in_every_reachable_state s :
  reachable s ->
  maps_agree s
  /\ forall o : operation,
       lock_ok false (prims_of o s) = true
       /\ run (prims_of o s) s = apply_op o s
       /\ existsb changes_pending (prims_of o s)
          = existsb changes_timers (prims_of o s)
       /\ maps_agree (apply_op o s).
Proof.
  intros Hr. pose proof (reachable_maps_agree s Hr) as Hag.
  split; [exact Hag|]. intros o.
  split; [apply lock_ok_prims|].
  split; [|split; [now apply prims_change_both|]].
  - destruct o; simpl;
      [apply run_schedule_prims | apply run_fire_prims | apply run_stop_prims].
  - destruct o; simpl;
      [now apply maps_agree_schedule | now apply maps_agree_take_batch
      | apply maps_agree_stop].
Qed.

(** The theorem in the state after one call of [schedule]. *)
Lemma maps_agree_in_every_reachable_state_witness :
  maps_agree one_scheduled
  /\ forall o : operation,
       lock_ok false (prims_of o one_scheduled) = true
       /\ run (prims_of o one_scheduled) one_scheduled = apply_op o one_scheduled
       /\ existsb changes_pending (prims_of o one_scheduled)
          = existsb changes_timers (prims_of o one_scheduled)
       /\ maps_agree (apply_op o one_scheduled).
Proof.
  apply (maps_agree_in_every_reachable_state one_scheduled).
  exact (reach_step (ASchedule no_files demo_plugin "/lib/showA/e01.mkv")
           init_sched reach_init).
Defined.

(** ** Shutdown and the call that finds nothing *)

Lemma cancel_alive_length handles h :
  length (cancel_alive handles h) = length h.
Proof.
  revert h. induction handles as [|i rest IH]; intros h; simpl; [reflexivity|].
  unfold cancel_alive in *. simpl. rewrite IH. apply length_alter.
Qed.

Lemma cancel_if_alive_idem t :
  cancel_if_alive (cancel_if_alive t) = cancel_if_alive t.
Proof. unfold cancel_if_alive, is_alive. destruct t as [k d [] c]; reflexivity. Qed.

(** After the loop a handle of the list has met [cancel] if it was
    alive; any other timer is as it was. *)
Lemma cancel_alive_lookup handles h i :
  cancel_alive handles h !! i
  = (if decide (i ∈ handles) then cancel_if_alive else id) <$> h !! i.
Proof.
  revert h. induction handles as [|j rest IH]; intros h.
  - change (cancel_alive [] h) with h.
    destruct (decide (i ∈ [])) as [Hin|_]; [now apply not_elem_of_nil in Hin|].
    now destruct (h !! i).
  - change (cancel_alive (j :: rest) h)
      with (cancel_alive rest (alter cancel_if_alive j h)).
    rewrite IH. destruct (decide (i = j)) as [->|Hij].
    + rewrite list_lookup_alter_eq.
      rewrite (decide_True (P := j ∈ j :: rest)) by apply list_elem_of_here.
      destruct (h !! j) as [t|]; simpl; [|reflexivity].
      destruct (decide (j ∈ rest)); simpl; [|reflexivity].
      now rewrite cancel_if_alive_idem.
    + rewrite list_lookup_alter_ne by congruence.
      destruct (decide (i ∈ rest)) as [Hin|Hnin].
      * rewrite decide_True by now apply list_elem_of_further. reflexivity.
      * rewrite decide_False; [reflexivity|].
        intros [?|?]%elem_of_cons; contradiction.
Qed.

Lemma stop_service_twice s : stop_service (stop_service s) = stop_service s.
Proof.
  unfold stop_service. simpl. rewrite map_to_list_empty. reflexivity.
Qed.

(** C6.  When the key is absent from the pending map, the deferred call
    returns at once: the scheduler state is the same, nothing is done
    outside the lock, and the call ends normally.  A second shutdown
    leaves the state of the first as it is. *)
Theorem fire_without_entry_is_noop self up ups order key s :
  _pending_refreshes s !! key = None ->
  _execute_batch_refresh self up ups order key s = (s, (Ret tt, []))
  /\ take_batch key s = (s, None)
  /\ stop_service (stop_service s) = stop_service s.
Proof.
  intros Habs. unfold _execute_batch_refresh, take_batch. rewrite Habs.
  split; [reflexivity|]. split; [reflexivity|]. apply stop_service_twice.
Qed.

(** The theorem for a key that was never scheduled. *)
Lemma fire_without_entry_is_noop_witness :
  _execute_batch_refresh demo_plugin up_unreachable demo_ups first_order
    "/lib/showB" one_scheduled
  = (one_scheduled, (Ret tt, []))
  /\ take_batch "/lib/showB" one_scheduled = (one_scheduled, None)
  /\ stop_service (stop_service one_scheduled) = stop_service one_scheduled.
Proof.
  apply (fire_without_entry_is_noop demo_plugin up_unreachable demo_ups
           first_order "/lib/showB" one_scheduled).
  reflexivity.
Defined.

(** ** The timer threads, one at a time *)

Lemma spent_cancel t : spent t -> spent (cancel t).
Proof. intros [Hf | [Hw _]]; [now left | right; split; [exact Hw | reflexivity]]. Qed.

Lemma waiting_cancel_spent t : t_phase t = Waiting -> spent (cancel t).
Proof. intros Hw. right. split; [exact Hw | reflexivity]. Qed.

Lemma spent_set_phase_finished t : spent (set_phase Finished t).
Proof. now left. Qed.

Lemma take_batch_other key key' s :
  key' <> key ->
  _pending_refreshes (take_batch key' s).1 !! key = _pending_refreshes s !! key
  /\ _refresh_timers (take_batch key' s).1 !! key = _refresh_timers s !! key.
Proof.
  intros Hne. unfold take_batch.
  destruct (_pending_refreshes s !! key'); simpl; [|auto].
  now rewrite !lookup_delete_ne.
Qed.

Lemma spent_will_call now t : spent t -> will_call now t -> False.
Proof.
  intros [Hf | [Hw Hc]] [Hr | (Hw' & Hc' & _)]; congruence.
Qed.

Lemma take_batch_heap key s : heap (take_batch key s).1 = heap s.
Proof. unfold take_batch. now destruct (_pending_refreshes s !! key). Qed.

Lemma take_batch_clock key s : clock (take_batch key s).1 = clock s.
Proof. unfold take_batch. now destruct (_pending_refreshes s !! key). Qed.

Lemma take_batch_fired key s : fired (take_batch key s).1 = fired s.
Proof. unfold take_batch. now destruct (_pending_refreshes s !! key). Qed.

Lemma timer_call_running i t s :
  heap s !! i = Some t -> t_phase t = Running ->
  timer_call i s = fire_result i t s.
Proof.
  intros Hi Hph. unfold timer_call, fire_result. rewrite Hi, Hph.
  pose proof (take_batch_heap (t_key t) s) as Hh.
  pose proof (take_batch_clock (t_key t) s) as Hc.
  pose proof (take_batch_fired (t_key t) s) as Hf.
  destruct (take_batch (t_key t) s) as [s' batch]. simpl in *.
  now rewrite Hh, Hc, Hf.
Qed.

Lemma timer_thread_outcome i s : thread_outcome i s (timer_thread i s).
Proof.
  unfold timer_thread.
  destruct (heap s !! i) as [t|] eqn:Hi.
  2:{ unfold timer_wake, timer_call. rewrite Hi. simpl. rewrite Hi. constructor. }
  destruct (t_phase t) eqn:Hph.
  - (* waiting *)
    unfold timer_wake. rewrite Hi, Hph.
    destruct (t_cancelled t) eqn:Hc.
    + unfold timer_call. simpl. rewrite list_lookup_alter_eq, Hi. simpl.
      now apply (outcome_reap i s t).
    + destruct (Z.leb_spec (t_deadline t) (clock s)) as [Hdue|Hearly].
      * erewrite timer_call_running;
          [| simpl; rewrite list_lookup_alter_eq, Hi; reflexivity | reflexivity].
        assert (Heq : fire_result i (set_phase Running t)
                        (set_heap (alter (set_phase Running) i (heap s)) s)
                      = fire_result i t s).
        { unfold fire_result, take_batch. simpl.
          rewrite list_alter_alter_eq.
          rewrite (list_alter_ext (set_phase Finished ∘ set_phase Running)
                     (set_phase Finished) (heap s) (heap s) i) by (intros; reflexivity).
          destruct (_pending_refreshes s !! t_key t); reflexivity. }
        rewrite Heq. apply outcome_fire; [exact Hi|]. right. auto.
      * unfold timer_call. rewrite Hi, Hph. constructor.
  - (* running *)
    unfold timer_wake. rewrite Hi, Hph.
    rewrite (timer_call_running i t s Hi Hph).
    apply outcome_fire; [exact Hi|]. now left.
  - (* finished *)
    unfold timer_wake, timer_call. rewrite Hi, Hph. rewrite Hi, Hph. constructor.
Qed.

(** ** Shutdown when no timer thread is interrupted *)

Lemma registered_init : registered init_sched.
Proof. intros i t Hi. simpl in Hi. now rewrite lookup_nil in Hi. Qed.

Lemma registered_schedule delay key p s :
  registered s -> registered (schedule_key delay key p s).
Proof.
  intros Hreg i t. unfold schedule_key. cbn [heap _refresh_timers].
  set (heap1 := match _refresh_timers s !! key with
                | Some h => alter cancel h (heap s)
                | None => heap s
                end).
  intros Hi. apply lookup_app_Some in Hi as [Hi | [Hge Hi]].
  - subst heap1. destruct (_refresh_timers s !! key) as [h|] eqn:Hh.
    + destruct (decide (i = h)) as [->|Hne].
      * rewrite list_lookup_alter_eq in Hi.
        destruct (heap s !! h) as [t0|] eqn:H0; [|discriminate].
        injection Hi as <-. left.
        destruct (Hreg h t0 H0) as [Hs | (Hw & _)];
          [now apply spent_cancel | now apply waiting_cancel_spent].
      * rewrite list_lookup_alter_ne in Hi by congruence.
        destruct (Hreg i t Hi) as [Hs | (Hw & Hc & Hk)]; [now left|].
        right. split; [exact Hw|]. split; [exact Hc|].
        rewrite lookup_insert_ne; [exact Hk|]. intros Heq.
        rewrite <- Heq in Hk. congruence.
    + destruct (Hreg i t Hi) as [Hs | (Hw & Hc & Hk)]; [now left|].
      right. split; [exact Hw|]. split; [exact Hc|].
      rewrite lookup_insert_ne; [exact Hk|]. intros Heq.
      rewrite <- Heq in Hk. congruence.
  - destruct (i - length heap1)%nat as [|k] eqn:Hk; [|now rewrite lookup_cons, lookup_nil in Hi].
    injection Hi as <-. right. cbn [t_phase t_cancelled t_key].
    split; [reflexivity|]. split; [reflexivity|].
    rewrite lookup_insert_eq. f_equal. lia.
Qed.

Lemma registered_outcome i s s' :
  registered s -> thread_outcome i s s' -> registered s'.
Proof.
  intros Hreg Hout. destruct Hout as [ | t Hi Hw Hc | t Hi Hcall ].
  - exact Hreg.
  - intros j u. cbn [set_heap heap _refresh_timers]. intros Hj.
    destruct (decide (j = i)) as [->|Hne].
    + rewrite list_lookup_alter_eq, Hi in Hj. injection Hj as <-.
      left. apply spent_set_phase_finished.
    + rewrite list_lookup_alter_ne in Hj by congruence. now apply Hreg.
  - destruct (Hreg i t Hi) as [Hs | (Hw & Hc & Hk)];
      [now destruct (spent_will_call _ _ Hs Hcall)|].
    intros j u. unfold fire_result. cbn [heap _refresh_timers]. intros Hj.
    destruct (decide (j = i)) as [->|Hne].
    + rewrite list_lookup_alter_eq, Hi in Hj. injection Hj as <-.
      left. apply spent_set_phase_finished.
    + rewrite list_lookup_alter_ne in Hj by congruence.
      destruct (Hreg j u Hj) as [Hs | (Hw' & Hc' & Hk')]; [now left|].
      right. split; [exact Hw'|]. split; [exact Hc'|].
      assert (Hkeys : t_key t <> t_key u).
      { intros Heq. rewrite Heq in Hk. congruence. }
      destruct (take_batch_other (t_key u) (t_key t) s Hkeys) as [_ Ht].
      now rewrite Ht.
Qed.

(** After [stop_service] in such a state no timer is left that will call. *)
Lemma registered_stop s :
  registered s ->
  forall i t, heap (stop_service s) !! i = Some t -> spent t.
Proof.
  intros Hreg i t. cbn [stop_service heap]. rewrite cancel_alive_lookup.
  destruct (heap s !! i) as [t0|] eqn:H0; [|discriminate].
  simpl. intros [= <-].
  destruct (Hreg i t0 H0) as [Hs | (Hw & Hc & Hk)].
  - destruct (decide _); [|exact Hs].
    unfold cancel_if_alive. destruct (is_alive t0); [now apply spent_cancel | exact Hs].
  - rewrite decide_True.
    + unfold cancel_if_alive, is_alive. rewrite Hw. now apply waiting_cancel_spent.
    + apply list_elem_of_fmap. exists (t_key t0, i). split; [reflexivity|].
      now apply elem_of_map_to_list.
Qed.

Lemma whole_reachable_registered s : whole_reachable s -> registered s.
Proof.
  induction 1 as [|a s _ IH]; [apply registered_init|].
  destruct a as [fs self plex_path | i | | ]; simpl.
  - destruct (schedule_outcome fs self plex_path s)
      as [(e & _ & _ & ->) | (key & _ & _ & ->)];
      [exact IH | now apply registered_schedule].
  - eapply registered_outcome; [exact IH | apply timer_thread_outcome].
  - intros i t Hi. left. now apply (registered_stop s IH i).
  - exact IH.
Qed.

(** After [stop_service] both maps are empty, so no handle is
    referenced any more; every handle the timer map held whose timer
    was alive has been cancelled; no timer was added or removed; and a
    second call changes nothing.  In a state reached by calls of
    [schedule], whole timer threads, earlier shutdowns and the passing
    of time, the timers the map holds are all the timers that may still
    call: after [stop_service] none is left. *)
Lemma stop_service_idempotent s :
  _pending_refreshes (stop_service s) = ∅
  /\ _refresh_timers (stop_service s) = ∅
  /\ stop_service (stop_service s) = stop_service s
  /\ (forall key h t,
        _refresh_timers s !! key = Some h ->
        heap s !! h = Some t ->
        is_alive t = true ->
        heap (stop_service s) !! h = Some (cancel t))
  /\ (forall h t,
        heap s !! h = Some t ->
        (forall key, _refresh_timers s !! key <> Some h) ->
        heap (stop_service s) !! h = Some t)
  /\ (forall key h, _refresh_timers (stop_service s) !! key <> Some h)
  /\ length (heap (stop_service s)) = length (heap s)
  /\ (whole_reachable s ->
      forall i t, heap (stop_service s) !! i = Some t ->
        forall now, ~ will_call now t).
Proof.
  split; [reflexivity|]. split; [reflexivity|].
  split; [apply stop_service_twice|].
  split; [|split; [|split; [|split]]].
  - intros key h t Hk Hh Halive. simpl. rewrite cancel_alive_lookup, Hh.
    rewrite decide_True.
    + simpl. unfold cancel_if_alive. now rewrite Halive.
    + apply list_elem_of_fmap. exists (key, h). split; [reflexivity|].
      now apply elem_of_map_to_list.
  - intros h t Hh Hno. simpl. rewrite cancel_alive_lookup, Hh.
    rewrite decide_False; [reflexivity|].
    intros [[key h'] [Heq Hin]]%list_elem_of_fmap. simpl in Heq. subst h'.
    apply elem_of_map_to_list in Hin. now apply (Hno key).
  - intros key h. simpl. now rewrite lookup_empty.
  - simpl. apply cancel_alive_length.
  - intros Hr i t Hi now Hcall.
    apply (spent_will_call now t); [|exact Hcall].
    exact (registered_stop s (whole_reachable_registered s Hr) i t Hi).
Qed.

(** ** One key under the timer threads *)

Lemma fires_for_snoc key l r :
  fires_for key (l ++ [r])
  = (fires_for key l ++ (if decide (f_key r = key) then [r] else []))%list.
Proof.
  unfold fires_for. rewrite filter_app. reflexivity.
Qed.

(** A thread that runs in a quiescent state leaves it quiescent and
    makes no call for the key. *)
Lemma outcome_quiescent key i s s' :
  quiescent key s -> thread_outcome i s s' ->
  quiescent key s'
  /\ fires_for key (fired s') = fires_for key (fired s)
  /\ clock s' = clock s.
Proof.
  intros [Hp Hsp] Hout. destruct Hout as [ | t Hi Hw Hc | t Hi Hcall ].
  - repeat split; auto.
  - repeat split; auto. simpl. intros j u Hj Hk.
    destruct (decide (j = i)) as [->|Hne].
    + rewrite list_lookup_alter_eq, Hi in Hj. injection Hj as <-.
      apply spent_set_phase_finished.
    + rewrite list_lookup_alter_ne in Hj by congruence. eauto.
  - assert (Hkey : t_key t <> key).
    { intros Hk. exact (spent_will_call _ _ (Hsp i t Hi Hk) Hcall). }
    destruct (take_batch_other key (t_key t) s Hkey) as [Hp' _].
    unfold fire_result, quiescent, armed.
    cbn [_pending_refreshes _refresh_timers heap clock fired].
    repeat split.
    + now rewrite Hp'.
    + intros j u Hj Hk.
      destruct (decide (j = i)) as [->|Hne].
      * rewrite list_lookup_alter_eq, Hi in Hj. injection Hj as <-.
        apply spent_set_phase_finished.
      * rewrite list_lookup_alter_ne in Hj by congruence. eauto.
    + rewrite fires_for_snoc. cbn [f_key]. rewrite decide_False by exact Hkey.
      apply app_nil_r.
Qed.

(** A thread other than the one of the handle leaves an armed state armed. *)
Lemma outcome_armed key h d paths i s s' :
  armed key h d paths s -> i <> h -> thread_outcome i s s' ->
  armed key h d paths s'
  /\ fires_for key (fired s') = fires_for key (fired s)
  /\ clock s' = clock s.
Proof.
  intros (Hp & Ht & Hh & Hsp) Hih Hout.
  destruct Hout as [ | t Hi Hw Hc | t Hi Hcall ].
  - repeat split; auto.
  - repeat split; auto; simpl.
    + now rewrite list_lookup_alter_ne by congruence.
    + intros j u Hjh Hj Hk.
      destruct (decide (j = i)) as [->|Hne].
      * rewrite list_lookup_alter_eq, Hi in Hj. injection Hj as <-.
        apply spent_set_phase_finished.
      * rewrite list_lookup_alter_ne in Hj by congruence. eauto.
  - assert (Hkey : t_key t <> key).
    { intros Hk. exact (spent_will_call _ _ (Hsp i t Hih Hi Hk) Hcall). }
    destruct (take_batch_other key (t_key t) s Hkey) as [Hp' Ht'].
    unfold fire_result, quiescent, armed.
    cbn [_pending_refreshes _refresh_timers heap clock fired].
    repeat split.
    + now rewrite Hp'.
    + now rewrite Ht'.
    + now rewrite list_lookup_alter_ne by congruence.
    + intros j u Hjh Hj Hk.
      destruct (decide (j = i)) as [->|Hne].
      * rewrite list_lookup_alter_eq, Hi in Hj. injection Hj as <-.
        apply spent_set_phase_finished.
      * rewrite list_lookup_alter_ne in Hj by congruence. eauto.
    + rewrite fires_for_snoc. cbn [f_key]. rewrite decide_False by exact Hkey.
      apply app_nil_r.
Qed.



(** ** One key along the time line *)

Lemma tick_run_threads s :
  tick s = run_threads (seq 0 (length (heap s))) (advance_clock s).
Proof. reflexivity. Qed.

Lemma threads_quiescent key l s :
  quiescent key s ->
  quiescent key (run_threads l s)
  /\ fires_for key (fired (run_threads l s)) = fires_for key (fired s)
  /\ clock (run_threads l s) = clock s.
Proof.
  revert s. induction l as [|i l IH]; intros s Hq; [auto|].
  destruct (outcome_quiescent key i s _ Hq (timer_thread_outcome i s))
    as (Hq' & Hf & Hc).
  destruct (IH _ Hq') as (Hq'' & Hf' & Hc').
  change (run_threads (i :: l) s) with (run_threads l (timer_thread i s)).
  split; [exact Hq'' | split; [congruence | congruence]].
Qed.



Lemma quiescent_advance key s : quiescent key s -> quiescent key (advance_clock s).
Proof. intros H. exact H. Qed.


Lemma wait_quiescent key n s :
  quiescent key s ->
  quiescent key (wait n s)
  /\ fires_for key (fired (wait n s)) = fires_for key (fired s)
  /\ clock (wait n s) = clock s + Z.of_nat n.
Proof.
  revert s. induction n as [|n IH]; intros s Hq.
  - simpl. split; [exact Hq | split; [reflexivity | lia]].
  - change (wait (S n) s) with (wait n (tick s)).
    destruct (threads_quiescent key (seq 0 (length (heap s))) _
                (quiescent_advance key s Hq)) as (Hq' & Hf & Hc).
    rewrite <- tick_run_threads in *.
    unfold advance_clock in Hf, Hc; cbn [fired clock] in Hf, Hc.
    destruct (IH _ Hq') as (Hq'' & Hf' & Hc').
    split; [exact Hq'' | split; [congruence | ]].
    lia.
Qed.




(** ** Scheduling under one key *)

(** A call of [schedule] arms the key: the path joins the pending set,
    the timer the map held is cancelled, and the new timer, due one
    delay from now, takes its place. *)
Lemma schedule_key_arms key delay p s :
  (forall i t, heap s !! i = Some t -> t_key t = key ->
     spent t \/ (_refresh_timers s !! key = Some i /\ t_phase t = Waiting)) ->
  armed key (length (heap s)) (clock s + delay)
    ({[p]} ∪ default ∅ (_pending_refreshes s !! key))
    (schedule_key delay key p s).
Proof.
  intros Hold. unfold armed, schedule_key.
  cbn [_pending_refreshes _refresh_timers heap].
  set (heap1 := match _refresh_timers s !! key with
                | Some h => alter cancel h (heap s)
                | None => heap s
                end).
  assert (Hlen : length heap1 = length (heap s)).
  { subst heap1. destruct (_refresh_timers s !! key); [apply length_alter | reflexivity]. }
  split; [apply lookup_insert_eq|].
  split; [rewrite lookup_insert_eq; now rewrite Hlen|].
  split; [apply list_lookup_middle; now rewrite Hlen|].
  intros i t Hi Hlook Hk.
  assert (Hlook1 : heap1 !! i = Some t).
  { apply lookup_app_Some in Hlook as [H | [Hge H]]; [exact H|].
    exfalso. rewrite Hlen in *.
    destruct (i - length (heap s))%nat as [|k] eqn:Hk'; [lia|].
    simpl in H. now rewrite lookup_nil in H. }
  subst heap1. destruct (_refresh_timers s !! key) as [h|] eqn:Hh.
  - destruct (decide (i = h)) as [->|Hne].
    + rewrite list_lookup_alter_eq in Hlook1.
      destruct (heap s !! h) as [t0|] eqn:H0; [|discriminate].
      injection Hlook1 as <-.
      destruct (Hold h t0 H0 Hk) as [Hs | [_ Hw]];
        [now apply spent_cancel | now apply waiting_cancel_spent].
    + rewrite list_lookup_alter_ne in Hlook1 by congruence.
      destruct (Hold i t Hlook1 Hk) as [Hs | [Heq _]]; [exact Hs | congruence].
  - destruct (Hold i t Hlook1 Hk) as [Hs | [Heq _]]; [exact Hs | discriminate].
Qed.

Lemma schedule_from_quiescent key delay p s :
  quiescent key s ->
  armed key (length (heap s)) (clock s + delay) {[p]} (schedule_key delay key p s).
Proof.
  intros [Hp Hsp].
  pose proof (schedule_key_arms key delay p s) as H.
  rewrite Hp in H. simpl in H. rewrite (right_id_L ∅ (∪)) in H.
  apply H. intros i t Hi Hk. left. eauto.
Qed.








Lemma quiescent_init key : quiescent key init_sched.
Proof.
  split; [apply lookup_empty|].
  intros i t Hi. simpl in Hi. now rewrite lookup_nil in Hi.
Qed.


(** The scenario of the specification, computed: two episodes five
    seconds apart, one call of the deferred function at second 65. *)
Example two_episodes_one_fire :
  fired_after 70
    (run_calls no_files demo_plugin two_episodes init_sched)
  = Ret [ (65, "/lib/showA/s01",
           Some ["/lib/showA/s01/e01.mkv"; "/lib/showA/s01/e02.mkv"]) ].
Proof. vm_compute. reflexivity. Qed.

(** A call after the batch has fired starts a batch of its own. *)
Example second_batch_is_independent :
  fired_after 60
    (run_calls no_files demo_plugin
          [ {| c_gap := 0; c_path := "/x/a.mkv"; c_first := true |};
            {| c_gap := 61; c_path := "/x/b.mkv"; c_first := true |} ]
          init_sched)
  = Ret [ (60, "/x", Some ["/x/a.mkv"]); (121, "/x", Some ["/x/b.mkv"]) ].
Proof. vm_compute. reflexivity. Qed.

(** A call that comes exactly one delay after the call before races
    with the timer that is due: when the thread of the timer wins, the
    two paths are refreshed apart; when the call wins, it cancels the
    timer and the two paths make one batch, one delay later. *)
Example call_at_the_deadline_races :
  fired_after 60
    (run_calls no_files demo_plugin
          [ {| c_gap := 0; c_path := "/x/a.mkv"; c_first := true |};
            {| c_gap := 60; c_path := "/x/b.mkv"; c_first := false |} ]
          init_sched)
  = Ret [ (60, "/x", Some ["/x/a.mkv"]); (120, "/x", Some ["/x/b.mkv"]) ]
  /\ fired_after 60
       (run_calls no_files demo_plugin
             [ {| c_gap := 0; c_path := "/x/a.mkv"; c_first := true |};
               {| c_gap := 60; c_path := "/x/b.mkv"; c_first := true |} ]
             init_sched)
     = Ret [ (120, "/x", Some ["/x/a.mkv"; "/x/b.mkv"]) ].
Proof. split; vm_compute; reflexivity. Qed.

(** ** A timer thread caught between its two steps *)

Lemma reachable_run_actions acts s :
  reachable s -> reachable (run_actions acts s).
Proof.
  revert s. induction acts as [|a acts IH]; intros s H; [exact H|].
  cbn. apply IH. now apply reach_step.
Qed.

(** C7 (the case the code misses).  The thread of the first timer has
    read its flag and goes on to the call; before it takes the lock, a
    second call of [schedule] for the same key cancels it, too late,
    and puts a second timer in the map.  The deferred call of the first
    timer then takes both paths and deletes the entry of the key from
    the timer map, which is the second timer.  That timer is no longer
    referenced: [stop_service], which says that it clears all timers,
    does not meet it.  After [stop_service] it is alive and not
    cancelled, and sixty seconds later it makes its deferred call. *)
Theorem stop_service_misses_unreferenced_timer :
  reachable interrupted_thread
  /\ fired interrupted_thread
     = [ {| f_time := 60; f_key := "/lib/showA";
            f_batch := Some {[ "/lib/showA/e01.mkv"; "/lib/showA/e02.mkv" ]} |} ]
  /\ _refresh_timers interrupted_thread = ∅
  /\ heap interrupted_thread
     = [ {| t_key := "/lib/showA"; t_deadline := 60;
            t_phase := Finished; t_cancelled := true |};
         {| t_key := "/lib/showA"; t_deadline := 120;
            t_phase := Waiting; t_cancelled := false |} ]
  /\ heap (stop_service interrupted_thread) = heap interrupted_thread
  /\ (exists t, heap (stop_service interrupted_thread) !! 1%nat = Some t
        /\ is_alive t = true /\ t_cancelled t = false
        /\ will_call 120 t)
  /\ fired_after 60 (Ret (stop_service interrupted_thread))
     = Ret [ (60, "/lib/showA",
              Some ["/lib/showA/e01.mkv"; "/lib/showA/e02.mkv"]);
             (120, "/lib/showA", None) ].
Proof.
  split.
  { unfold interrupted_thread. apply reachable_run_actions, reach_init. }
  split; [vm_compute; reflexivity|].
  split; [vm_compute; reflexivity|].
  split; [vm_compute; reflexivity|].
  split; [vm_compute; reflexivity|].
  split; [|vm_compute; reflexivity].
  exists {| t_key := "/lib/showA"; t_deadline := 120;
            t_phase := Waiting; t_cancelled := false |}.
  split; [vm_compute; reflexivity|]. split; [reflexivity|].
  split; [reflexivity|]. right. cbn. repeat split. lia.
Qed.

(** What the timer that was left does next: a path scheduled for the
    key forty seconds after the shutdown is refreshed twenty seconds
    later, by the old timer, and not after the delay of sixty. *)
Example stale_timer_takes_later_batch :
  fired_after 100
    (run_calls no_files demo_plugin
       [ {| c_gap := 40; c_path := "/lib/showA/e03.mkv"; c_first := true |} ]
       (stop_service interrupted_thread))
  = Ret [ (60, "/lib/showA",
           Some ["/lib/showA/e01.mkv"; "/lib/showA/e02.mkv"]);
          (120, "/lib/showA", Some ["/lib/showA/e03.mkv"]);
          (160, "/lib/showA", None) ].
Proof. vm_compute. reflexivity. Qed.

(* ===================================================================== *)
(** * Part III: further properties of the code                            *)
(* ===================================================================== *)

(** ** [map_path] *)

Lemma prefix_split lp s :
  String.prefix lp s = true -> s = lp ++ PyStr.drop_str (String.length lp) s.
Proof.
  revert s. induction lp as [|c lp IH]; intros s; [reflexivity|].
  destruct s as [|d s]; [discriminate|]. simpl.
  destruct (ascii_dec c d) as [->|]; [|discriminate].
  intros H.
  change (String d s = String d (lp ++ PyStr.drop_str (String.length lp) s)).
  f_equal. now apply IH.
Qed.

Lemma applies_Some m local_path lp pp :
  applies m local_path = Some (lp, pp) ->
  truthy (m_local m) = Some lp /\ truthy (m_plex m) = Some pp
  /\ String.prefix lp local_path = true.
Proof.
  unfold applies, PyStr.startswith.
  destruct (truthy (m_local m)) as [l|]; [|discriminate].
  destruct (truthy (m_plex m)) as [q|]; [|discriminate].
  destruct (String.prefix l local_path) eqn:Hp; [|discriminate].
  intros [= <- <-]. auto.
Qed.

(** One step of the loop of [map_path], through [applies]. *)
Lemma best_mapping_cons m rest local_path best best_len :
  best_mapping (m :: rest) local_path best best_len =
  match applies m local_path with
  | Some (lp, pp) =>
      if best_len <? Z.of_nat (String.length lp)
      then best_mapping rest local_path (Some (lp, pp)) (Z.of_nat (String.length lp))
      else best_mapping rest local_path best best_len
  | None => best_mapping rest local_path best best_len
  end.
Proof.
  unfold applies. simpl.
  destruct (truthy (m_local m)) as [l|]; [|reflexivity].
  destruct (truthy (m_plex m)) as [q|]; [|reflexivity].
  destruct (PyStr.startswith local_path l); reflexivity.
Qed.

(** The loop of [map_path]: the pair it ends with is the one it started
    with or comes from a mapping that applies, and no mapping that
    applies has a longer local side. *)
Lemma best_mapping_spec maps local_path :
  forall best,
    (best_mapping maps local_path best (held_length best) = best
     \/ exists m, In m maps
          /\ applies m local_path
             = best_mapping maps local_path best (held_length best))
    /\ held_length best
       <= held_length (best_mapping maps local_path best (held_length best))
    /\ forall m lp' pp', In m maps ->
         applies m local_path = Some (lp', pp') ->
         Z.of_nat (String.length lp')
         <= held_length (best_mapping maps local_path best (held_length best)).
Proof.
  induction maps as [|m rest IH]; intros best.
  - simpl. split; [now left|]. split; [lia|]. intros ? ? ? [].
  - rewrite best_mapping_cons.
    destruct (applies m local_path) as [[lp pp]|] eqn:Hm.
    + destruct (Z.ltb_spec (held_length best) (Z.of_nat (String.length lp)))
        as [Hlt|Hge].
      * destruct (IH (Some (lp, pp))) as (Hsrc & Hlen & Hmax).
        change (held_length (Some (lp, pp)))
          with (Z.of_nat (String.length lp)) in *.
        split; [|split].
        -- right. destruct Hsrc as [-> | (m' & Hin & Hap)].
           ++ exists m. split; [now left | exact Hm].
           ++ exists m'. split; [now right | exact Hap].
        -- lia.
        -- intros m' lp' pp' [<-|Hin] Hap; [|eauto].
           rewrite Hm in Hap. injection Hap as <- <-. exact Hlen.
      * destruct (IH best) as (Hsrc & Hlen & Hmax).
        split; [|split].
        -- destruct Hsrc as [-> | (m' & Hin & Hap)]; [now left|].
           right. exists m'. split; [now right | exact Hap].
        -- exact Hlen.
        -- intros m' lp' pp' [<-|Hin] Hap; [|eauto].
           rewrite Hm in Hap. injection Hap as <- <-. lia.
    + destruct (IH best) as (Hsrc & Hlen & Hmax).
      split; [|split].
      * destruct Hsrc as [-> | (m' & Hin & Hap)]; [now left|].
        right. exists m'. split; [now right | exact Hap].
      * exact Hlen.
      * intros m' lp' pp' [<-|Hin] Hap; [congruence | eauto].
Qed.

(** X1.  When [map_path] maps a path, it has used one of the configured
    mappings whose two sides are not empty and whose local side starts
    the path: the result is the Plex side followed by the rest of the
    path, and no mapping that applies has a longer local side. *)
Theorem map_path_uses_longest_prefix self local_path mapped :
  map_path self local_path = Some mapped ->
  exists m lp pp rest,
    In m (_path_maps self)
    /\ applies m local_path = Some (lp, pp)
    /\ lp <> EmptyString /\ pp <> EmptyString
    /\ local_path = lp ++ rest
    /\ mapped = pp ++ rest
    /\ forall m' lp' pp', In m' (_path_maps self) ->
         applies m' local_path = Some (lp', pp') ->
         (String.length lp' <= String.length lp)%nat.
Proof.
  unfold map_path. intros Hmap.
  destruct (best_mapping_spec (_path_maps self) local_path None)
    as (Hsrc & _ & Hmax).
  change (held_length None) with (-1) in *.
  destruct (best_mapping (_path_maps self) local_path None (-1))
    as [[lp pp]|]; [|discriminate].
  injection Hmap as <-.
  destruct Hsrc as [? | (m & Hin & Hap)]; [discriminate|].
  destruct (applies_Some _ _ _ _ Hap) as (Hl & Hq & Hpre).
  apply truthy_Some in Hl as [_ Hl]. apply truthy_Some in Hq as [_ Hq].
  exists m, lp, pp, (PyStr.drop_str (String.length lp) local_path).
  split; [exact Hin|]. split; [exact Hap|]. split; [exact Hl|]. split; [exact Hq|].
  split; [now apply prefix_split|].
  split; [now apply replace_first_prefix|].
  intros m' lp' pp' Hin' Hap'. specialize (Hmax m' lp' pp' Hin' Hap').
  simpl in Hmax. lia.
Qed.

(** The theorem on the first mapping of the sample plug-in. *)
Lemma map_path_uses_longest_prefix_witness :
  exists m lp pp rest,
    In m (_path_maps demo_plugin)
    /\ applies m "/files1/show/e01.mkv" = Some (lp, pp)
    /\ lp <> EmptyString /\ pp <> EmptyString
    /\ "/files1/show/e01.mkv" = lp ++ rest
    /\ "E:\videos/show/e01.mkv" = pp ++ rest
    /\ forall m' lp' pp', In m' (_path_maps demo_plugin) ->
         applies m' "/files1/show/e01.mkv" = Some (lp', pp') ->
         (String.length lp' <= String.length lp)%nat.
Proof.
  apply (map_path_uses_longest_prefix demo_plugin "/files1/show/e01.mkv"
           "E:\videos/show/e01.mkv").
  reflexivity.
Defined.

(** X2.  [map_path] gives up exactly when no configured mapping applies
    to the path: a mapping with a missing or empty side never applies,
    whatever the path. *)
Theorem map_path_none_iff_no_mapping_applies self local_path :
  (map_path self local_path = None
   <-> forall m, In m (_path_maps self) -> applies m local_path = None)
  /\ (forall m, truthy (m_local m) = None \/ truthy (m_plex m) = None ->
        applies m local_path = None).
Proof.
  split.
  - unfold map_path.
    destruct (best_mapping_spec (_path_maps self) local_path None)
      as (Hsrc & _ & Hmax).
    change (held_length None) with (-1) in *.
    destruct (best_mapping (_path_maps self) local_path None (-1))
      as [[lp pp]|].
    + split; [discriminate|]. intros Hnone.
      destruct Hsrc as [? | (m & Hin & Hap)]; [discriminate|].
      rewrite (Hnone m Hin) in Hap. discriminate.
    + split; [|reflexivity]. intros _ m Hin.
      destruct (applies m local_path) as [[lp' pp']|] eqn:Hap; [|reflexivity].
      specialize (Hmax m lp' pp' Hin Hap). simpl in Hmax. lia.
  - intros m [H|H]; unfold applies; rewrite H; [reflexivity|].
    now destruct (truthy (m_local m)).
Qed.

(** ** The normalized path and the batching key *)

Lemma replace_char_absent a b s :
  PyStr.contains_char a s = false -> PyStr.replace_char a b s = s.
Proof.
  induction s as [|d s IH]; simpl; [reflexivity|].
  destruct (Ascii.eqb d a); [discriminate|]. intros H. now rewrite IH.
Qed.

(** X3.  Line 452 is idempotent and keeps the length of the path; its
    result never mixes the two separators: it holds a forward slash
    only when it holds no backslash. *)
Theorem normalize_plex_path_idempotent p :
  normalize_plex_path (normalize_plex_path p) = normalize_plex_path p
  /\ String.length (normalize_plex_path p) = String.length p
  /\ (PyStr.contains_char PyStr.backslash (normalize_plex_path p) = true ->
      PyStr.contains_char PyStr.slash (normalize_plex_path p) = false)
  /\ PyStr.contains_char PyStr.backslash (normalize_plex_path p)
     = PyStr.contains_char PyStr.backslash p.
Proof.
  unfold normalize_plex_path.
  destruct (PyStr.contains_char PyStr.backslash p) eqn:Hb.
  - assert (Hno : PyStr.contains_char PyStr.slash
                    (PyStr.replace_char PyStr.slash PyStr.backslash p) = false)
      by (apply replace_char_removes; discriminate).
    assert (Hstill : PyStr.contains_char PyStr.backslash
                       (PyStr.replace_char PyStr.slash PyStr.backslash p) = true).
    { clear Hno. induction p as [|d p IH]; simpl in *; [discriminate|].
      destruct (Ascii.eqb d PyStr.slash) eqn:Hd.
      - reflexivity.
      - destruct (Ascii.eqb d PyStr.backslash); [reflexivity | now apply IH]. }
    rewrite Hstill. split; [now apply replace_char_absent|].
    split; [apply replace_char_length|]. split; [intros _; exact Hno | reflexivity].
  - rewrite Hb. split; [reflexivity|]. split; [reflexivity|].
    split; [discriminate | reflexivity].
Qed.

Lemma abs_path_inj comps1 comps2 :
  Forall component comps1 -> Forall component comps2 ->
  abs_path comps1 = abs_path comps2 -> comps1 = comps2.
Proof.
  intros H1 H2 Heq.
  pose proof (parse_abs_path comps1 H1) as P1.
  pose proof (parse_abs_path comps2 H2) as P2.
  rewrite Heq, P2 in P1. now injection P1.
Qed.

(** X4.  Two media files, given as absolute paths in normal form, for
    which [_get_parent_path] returns a key (the operating system has
    answered [is_file]): each key is the directory of the file, whatever
    the answer was, so the two files are batched under the same key
    exactly when they lie in the same directory. *)
Theorem media_files_batch_by_directory
    fs comps1 name1 comps2 name2 key1 key2 :
  Forall component (comps1 ++ [name1]) ->
  Forall component (comps2 ++ [name2]) ->
  has_media_ext name1 = true ->
  has_media_ext name2 = true ->
  _get_parent_path fs (abs_path (comps1 ++ [name1])) = Ret key1 ->
  _get_parent_path fs (abs_path (comps2 ++ [name2])) = Ret key2 ->
  key1 = abs_path comps1
  /\ key2 = abs_path comps2
  /\ (key1 = key2 <-> comps1 = comps2).
Proof.
  intros H1 H2 E1 E2 K1 K2.
  assert (Hkey : forall comps name key, Forall component (comps ++ [name]) ->
            has_media_ext name = true ->
            _get_parent_path fs (abs_path (comps ++ [name])) = Ret key ->
            key = abs_path comps).
  { intros comps name key Hall Hext. unfold _get_parent_path.
    destruct (is_file fs (PosixPath.parse (abs_path (comps ++ [name]))))
      as [file|e]; cbn [bind]; [|discriminate].
    rewrite (parse_abs_path _ Hall).
    unfold PosixPath.name, PosixPath.parent. cbn [PosixPath.parts PosixPath.root].
    rewrite List.last_last, List.removelast_last, Hext, orb_true_r.
    intros [= <-]. symmetry. apply to_string_abs. }
  rewrite (Hkey _ _ _ H1 E1 K1), (Hkey _ _ _ H2 E2 K2).
  split; [reflexivity|]. split; [reflexivity|]. split; [|now intros ->].
  apply abs_path_inj.
  - apply Forall_app in H1. tauto.
  - apply Forall_app in H2. tauto.
Qed.

(** The theorem on two episodes of one season. *)
Lemma media_files_batch_by_directory_witness :
  abs_path ["lib"; "showA"; "s01"] = abs_path ["lib"; "showA"; "s01"]
  /\ abs_path ["lib"; "showA"; "s01"] = abs_path ["lib"; "showA"; "s01"]
  /\ (abs_path ["lib"; "showA"; "s01"] = abs_path ["lib"; "showA"; "s01"]
      <-> ["lib"; "showA"; "s01"] = ["lib"; "showA"; "s01"]).
Proof.
  apply (media_files_batch_by_directory no_files
           ["lib"; "showA"; "s01"] "e01.mkv" ["lib"; "showA"; "s01"] "e02.mp4");
    first [reflexivity | repeat constructor].
Defined.

(** ** The delay setting, once more *)

Lemma clamp_delay_fixed d : 10 <= d <= 300 -> clamp_delay d = d.
Proof. intros H. now apply clamp_delay_cases. Qed.

(** X5.  A configuration without content leaves the delay as it was.
    With a configuration that has content and a delay [init_plugin]
    accepts, the delay set lies between 10 and 300, does not depend on
    the delay before, and is kept when the configuration is saved again
    with the value that was set. *)
Theorem init_plugin_delay_is_bounded_and_stable (c : gmap string pyval) old d :
  init_plugin_batch_delay (Some c) old = Ret d ->
  c <> ∅ ->
  10 <= d <= 300
  /\ (forall old', init_plugin_batch_delay (Some c) old' = Ret d)
  /\ init_plugin_batch_delay (Some (<["batch_delay" := PyInt d]> c)) old = Ret d
  /\ init_plugin_batch_delay None old = Ret old
  /\ init_plugin_batch_delay (Some ∅) old = Ret old.
Proof.
  intros Hinit Hne.
  assert (Hsz : (size c =? 0)%nat = false).
  { apply Nat.eqb_neq. intros H. now apply map_size_empty_inv in H. }
  unfold init_plugin_batch_delay in Hinit. rewrite Hsz in Hinit.
  assert (Hrange : 10 <= d <= 300).
  { destruct (PyInt.int (default (PyInt 60) (c !! "batch_delay"))) as [z|[]];
      try discriminate; injection Hinit as <-;
      first [apply clamp_delay_range | lia]. }
  split; [exact Hrange|]. split; [|split; [|split; reflexivity]].
  - intros old'. unfold init_plugin_batch_delay. rewrite Hsz. exact Hinit.
  - unfold init_plugin_batch_delay.
    destruct (size (<["batch_delay" := PyInt d]> c) =? 0)%nat eqn:Hsz'.
    + apply Nat.eqb_eq, map_size_empty_inv in Hsz'.
      now apply insert_non_empty in Hsz'.
    + rewrite lookup_insert_eq. simpl. now rewrite clamp_delay_fixed.
Qed.

(** The theorem on a configuration whose delay is the string [" 5 "]. *)
Lemma init_plugin_delay_is_bounded_and_stable_witness :
  10 <= 10 <= 300
  /\ (forall old', init_plugin_batch_delay
                     (Some {[ "batch_delay" := PyStr " 5 " ]}) old' = Ret 10)
  /\ init_plugin_batch_delay
       (Some (<["batch_delay" := PyInt 10]> {[ "batch_delay" := PyStr " 5 " ]})) 100
     = Ret 10
  /\ init_plugin_batch_delay None 100 = Ret 100
  /\ init_plugin_batch_delay (Some ∅) 100 = Ret 100.
Proof.
  apply (init_plugin_delay_is_bounded_and_stable
           {[ "batch_delay" := PyStr " 5 " ]} 100 10).
  - reflexivity.
  - apply insert_non_empty.
Defined.

(** ** The text of the path mappings *)

Section MapsTextFacts.

Import MapsText.







Lemma list_ascii_of_string_app a b :
  list_ascii_of_string (a ++ b)
  = (list_ascii_of_string a ++ list_ascii_of_string b)%list.
Proof. induction a as [|c a IH]; simpl; [reflexivity | now rewrite IH]. Qed.











End MapsTextFacts.





(** ** [HardLinkJacker]: installing and removing the hook *)

Lemma hijack_ok_step {M : Type} (m : M) (c : Hijack.host_call) (w : Hijack.world M) :
  hijack_ok m w ->
  hijack_ok m (Hijack.host_step c w)
  /\ Hijack._hijacked (Hijack.host_step c w).1
     = match c with
       | Hijack.CallInit (Some true) => true
       | _ => false
       end
  /\ Hijack._intercept_count (Hijack.host_step c w).1 = Hijack._intercept_count w.1.
Proof.
  destruct w as [[e n o h] l]. unfold hijack_ok. cbn.
  destruct h; cbn.
  - intros (-> & -> & ->).
    destruct c as [[[|]|]|]; cbn; repeat split; reflexivity.
  - intros ->.
    destruct c as [[[|]|]|]; cbn; repeat split; reflexivity.
Qed.

(** X8.  Whatever calls of [init_plugin] and [stop_service] the host
    makes on a fresh plug-in, the hook is installed exactly when the last
    call was [init_plugin] with [enabled] true; then [LocalStorage.link]
    is the wrapper and the method saved is the one of the host, never the
    wrapper itself; otherwise [LocalStorage.link] is the method of the
    host again.  [stop_service] always leaves the method of the host in
    place, and none of these calls touches the counter. *)
Theorem hijack_follows_last_host_call {M : Type} (m : M)
    (cs : list Hijack.host_call) :
  let w := Hijack.host_run cs (Hijack.new_jacker, Hijack.HostLink m) in
  hijack_ok m w
  /\ (Hijack._hijacked w.1 = true
      <-> last cs = Some (Hijack.CallInit (Some true)))
  /\ Hijack._original_link_method w.1 <> Some Hijack.CustomWrapper
  /\ (Hijack.stop_service w).2 = Hijack.HostLink m
  /\ Hijack._intercept_count w.1 = 0%nat.
Proof.
  cbv zeta.
  assert (H : hijack_ok m (Hijack.host_run cs (Hijack.new_jacker, Hijack.HostLink m))
              /\ (Hijack._hijacked
                    (Hijack.host_run cs (Hijack.new_jacker, Hijack.HostLink m)).1 = true
                  <-> last cs = Some (Hijack.CallInit (Some true)))
              /\ Hijack._original_link_method
                   (Hijack.host_run cs (Hijack.new_jacker, Hijack.HostLink m)).1
                 <> Some Hijack.CustomWrapper
              /\ Hijack._intercept_count
                   (Hijack.host_run cs (Hijack.new_jacker, Hijack.HostLink m)).1 = 0%nat).
  { induction cs as [|c cs IH] using rev_ind.
    - cbn. repeat split; try discriminate; try reflexivity.
    - destruct IH as (Hok & _ & Horig & Hn).
      unfold Hijack.host_run in *. rewrite fold_left_app. cbn [fold_left].
      set (w := fold_left _ cs _) in *.
      destruct (hijack_ok_step m c w Hok) as (Hok' & Hh & Hn').
      split; [exact Hok'|]. split; [|split].
      + rewrite Hh, last_snoc. split.
        * destruct c as [[[|]|]|]; try discriminate. reflexivity.
        * intros [= ->]. reflexivity.
      + clear Hh Hn'. destruct w as [[e n o h] l].
        unfold hijack_ok in Hok. cbn in Hok, Horig |- *.
        destruct h, c as [[[|]|]|]; cbn in *;
          try exact Horig;
          try (destruct Hok as (_ & -> & _); cbn; discriminate);
          try (subst l; discriminate).
      + now rewrite Hn'. }
  destruct H as (Hok & Hh & Horig & Hn).
  split; [exact Hok|]. split; [exact Hh|]. split; [exact Horig|]. split; [|exact Hn].
  destruct (Hijack.host_run cs (Hijack.new_jacker, Hijack.HostLink m)) as [[e n o h] l].
  unfold hijack_ok in Hok. cbn in Hok |- *.
  destruct h; cbn.
  - destruct Hok as (_ & -> & _). reflexivity.
  - exact Hok.
Qed.

(** ** [_custom_link_logic] puts nothing back *)



(** ** The scheduler: batches that do not meet *)





(** ** The scheduler: what is left after [stop_service] *)

(** X11.  In a state reached by calls of [schedule], whole timer
    threads, shutdowns and the passing of time, [stop_service] drops the
    pending paths for good: however long one waits afterwards, no
    deferred call is made for any key, and nothing becomes pending. *)
Theorem nothing_fires_after_stop_service s n key :
  whole_reachable s ->
  fires_for key (fired (wait n (stop_service s))) = fires_for key (fired s)
  /\ _pending_refreshes (wait n (stop_service s)) !! key = None
  /\ clock (wait n (stop_service s)) = clock s + Z.of_nat n.
Proof.
  intros Hs.
  assert (Hq : quiescent key (stop_service s)).
  { split; [reflexivity|]. intros i t Hi _.
    exact (registered_stop s (whole_reachable_registered s Hs) i t Hi). }
  destruct (wait_quiescent key n (stop_service s) Hq) as ((Hp & _) & Hf & Hc).
  split; [exact Hf|]. split; [exact Hp | exact Hc].
Qed.

Lemma nothing_fires_after_stop_service_witness :
  fires_for "/lib/showA" (fired (wait 120 (stop_service one_scheduled)))
  = fires_for "/lib/showA" (fired one_scheduled)
  /\ _pending_refreshes (wait 120 (stop_service one_scheduled)) !! "/lib/showA" = None
  /\ clock (wait 120 (stop_service one_scheduled)) = clock one_scheduled + Z.of_nat 120.
Proof.
  apply (nothing_fires_after_stop_service one_scheduled 120 "/lib/showA").
  exact (whole_next (WSchedule no_files demo_plugin "/lib/showA/e01.mkv")
           init_sched whole_init).
Defined.

(** X12.  In such a state at most one timer of a key may still make its
    call, and it is the one the timer map holds for the key; no timer is
    left between the end of its wait and its call. *)
Theorem one_live_timer_per_key s i j t t' :
  whole_reachable s ->
  heap s !! i = Some t -> heap s !! j = Some t' ->
  t_key t = t_key t' ->
  ~ spent t -> ~ spent t' ->
  i = j
  /\ _refresh_timers s !! t_key t = Some i
  /\ t_phase t = Waiting
  /\ is_Some (_pending_refreshes s !! t_key t).
Proof.
  intros Hs Hi Hj Hk Ht Ht'.
  pose proof (whole_reachable_registered s Hs) as Hreg.
  destruct (Hreg i t Hi) as [Hsp | (Hw & _ & Hm)]; [contradiction|].
  destruct (Hreg j t' Hj) as [Hsp | (_ & _ & Hm')]; [contradiction|].
  rewrite <- Hk in Hm'. split; [congruence|]. split; [exact Hm|]. split; [exact Hw|].
  assert (Hr : reachable s).
  { clear -Hs. induction Hs as [|a s _ IH]; [constructor|].
    destruct a as [fs self p | k | | ].
    - exact (reach_step (ASchedule fs self p) s IH).
    - exact (reach_step (ACall k) _ (reach_step (AWake k) s IH)).
    - exact (reach_step AStop s IH).
    - exact (reach_step ATick s IH). }
  destruct (reachable_maps_agree s Hr) as [Hdom _].
  apply elem_of_dom. rewrite Hdom. apply elem_of_dom. eauto.
Qed.

Lemma one_live_timer_per_key_witness :
  let t := {| t_key := "/lib/showA"; t_deadline := 60;
              t_phase := Waiting; t_cancelled := false |} in
  0%nat = 0%nat
  /\ _refresh_timers one_scheduled !! t_key t = Some 0%nat
  /\ t_phase t = Waiting
  /\ is_Some (_pending_refreshes one_scheduled !! t_key t).
Proof.
  apply (one_live_timer_per_key one_scheduled 0 0
           {| t_key := "/lib/showA"; t_deadline := 60;
              t_phase := Waiting; t_cancelled := false |}
           {| t_key := "/lib/showA"; t_deadline := 60;
              t_phase := Waiting; t_cancelled := false |}).
  - exact (whole_next (WSchedule no_files demo_plugin "/lib/showA/e01.mkv")
             init_sched whole_init).
  - reflexivity.
  - reflexivity.
  - reflexivity.
  - intros [H | [_ H]]; discriminate H.
  - intros [H | [_ H]]; discriminate H.
Defined.

(** ** The scheduler: keys do not disturb each other *)

Lemma lookup_alter_key (f : timer -> timer) i (h : list timer) j t :
  (forall t, t_key (f t) = t_key t) ->
  h !! j = Some t ->
  exists t', alter f i h !! j = Some t' /\ t_key t' = t_key t.
Proof.
  intros Hf Hj. destruct (decide (j = i)) as [->|Hne].
  - rewrite list_lookup_alter_eq, Hj. cbn. eauto.
  - rewrite list_lookup_alter_ne by congruence. eauto.
Qed.

Lemma handles_ok_mono s s' :
  handles_ok s ->
  (forall k h, _refresh_timers s' !! k = Some h -> _refresh_timers s !! k = Some h) ->
  (forall i t, heap s !! i = Some t ->
     exists t', heap s' !! i = Some t' /\ t_key t' = t_key t) ->
  handles_ok s'.
Proof.
  intros Hok Hm Hh k h Hk.
  destruct (Hok k h (Hm k h Hk)) as (t & Ht & Hkey).
  destruct (Hh h t Ht) as (t' & Ht' & Hkey'). exists t'. split; congruence.
Qed.

Lemma handles_ok_schedule delay key p s :
  handles_ok s -> handles_ok (schedule_key delay key p s).
Proof.
  intros Hok k h. unfold schedule_key. cbn [_refresh_timers heap].
  set (heap1 := match _refresh_timers s !! key with
                | Some h0 => alter cancel h0 (heap s)
                | None => heap s
                end).
  assert (Hkeep : forall i t, heap s !! i = Some t ->
            exists t', heap1 !! i = Some t' /\ t_key t' = t_key t).
  { intros i t Hi. subst heap1. destruct (_refresh_timers s !! key).
    - apply lookup_alter_key; [reflexivity | exact Hi].
    - eauto. }
  destruct (decide (k = key)) as [->|Hne].
  - rewrite lookup_insert_eq. intros [= <-].
    rewrite list_lookup_middle by reflexivity. eauto.
  - rewrite lookup_insert_ne by congruence. intros Hk.
    destruct (Hok k h Hk) as (t & Ht & Hkey).
    destruct (Hkeep h t Ht) as (t' & Ht' & Hkey').
    exists t'. split; [|congruence].
    apply lookup_app_Some. left. exact Ht'.
Qed.

Lemma handles_ok_take_batch key s :
  handles_ok s -> handles_ok (take_batch key s).1.
Proof.
  intros Hok. unfold take_batch.
  destruct (_pending_refreshes s !! key); [|exact Hok].
  apply (handles_ok_mono s); [exact Hok | | ]; cbn.
  - intros k h Hk. apply lookup_delete_Some in Hk as [_ Hk]. exact Hk.
  - eauto.
Qed.

Lemma handles_ok_step a s : handles_ok s -> handles_ok (step a s).
Proof.
  intros Hok. destruct a as [fs self p | key | | i | i | ]; cbn [step].
  - destruct (schedule_outcome fs self p s)
      as [(e & _ & _ & ->) | (key & _ & _ & ->)];
      [exact Hok | now apply handles_ok_schedule].
  - now apply handles_ok_take_batch.
  - intros k h Hk. cbn in Hk. rewrite lookup_empty in Hk. discriminate.
  - unfold timer_wake. destruct (heap s !! i) as [t|]; [|exact Hok].
    destruct (t_phase t); try exact Hok.
    destruct (t_cancelled t); [|destruct (t_deadline t <=? clock s); [|exact Hok]];
      (apply (handles_ok_mono s); [exact Hok | cbn; auto |];
       cbn; intros j t0 Hj; apply lookup_alter_key; [reflexivity | exact Hj]).
  - unfold timer_call. destruct (heap s !! i) as [t|]; [|exact Hok].
    destruct (t_phase t); try exact Hok.
    pose proof (handles_ok_take_batch (t_key t) s Hok) as Hok'.
    pose proof (take_batch_heap (t_key t) s) as Hheap.
    destruct (take_batch (t_key t) s) as [s' batch]. cbn [fst] in Hok', Hheap.
    apply (handles_ok_mono s'); [exact Hok' | cbn; auto |].
    cbn. intros j t0 Hj. apply lookup_alter_key; [reflexivity | exact Hj].
  - exact Hok.
Qed.

Lemma reachable_handles_ok s : reachable s -> handles_ok s.
Proof.
  induction 1 as [|a s _ IH]; [|now apply handles_ok_step].
  intros k h Hk. cbn in Hk. rewrite lookup_empty in Hk. discriminate.
Qed.

(** X13.  A batch that is pending for one key is left alone by whatever
    happens for another key: a call of [schedule] for the other key
    neither cancels its timer nor moves its deadline nor changes its
    paths, and the same holds for the deferred call for the other key
    and for the thread of any other timer. *)
Theorem other_keys_leave_batch_alone s key key' h d paths :
  reachable s ->
  armed key' h d paths s ->
  key <> key' ->
  (forall delay p, armed key' h d paths (schedule_key delay key p s))
  /\ armed key' h d paths (take_batch key s).1
  /\ (forall i, i <> h ->
        armed key' h d paths (timer_thread i s)
        /\ fires_for key' (fired (timer_thread i s)) = fires_for key' (fired s)).
Proof.
  intros Hs (Hp & Ht & Hh & Hsp) Hne.
  pose proof (reachable_handles_ok s Hs) as Hok.
  split; [|split].
  - intros delay p. unfold armed, schedule_key.
    cbn [_pending_refreshes _refresh_timers heap].
    set (heap1 := match _refresh_timers s !! key with
                  | Some h0 => alter cancel h0 (heap s)
                  | None => heap s
                  end).
    assert (Hlen : length heap1 = length (heap s)).
    { subst heap1. destruct (_refresh_timers s !! key); [apply length_alter | reflexivity]. }
    assert (Hh1 : heap1 !! h = heap s !! h).
    { subst heap1. destruct (_refresh_timers s !! key) as [h0|] eqn:Hh0; [|reflexivity].
      apply list_lookup_alter_ne. intros ->.
      destruct (Hok key h Hh0) as (t & Ht0 & Hkey).
      rewrite Hh in Ht0. injection Ht0 as <-. cbn in Hkey. congruence. }
    split; [now rewrite lookup_insert_ne by congruence|].
    split; [now rewrite lookup_insert_ne by congruence|].
    split.
    + apply lookup_app_Some. left. now rewrite Hh1.
    + intros i t Hi Hlook Hkey.
      apply lookup_app_Some in Hlook as [Hlook | [_ Hlook]].
      * subst heap1. destruct (_refresh_timers s !! key) as [h0|]; [|eauto].
        destruct (decide (i = h0)) as [->|Hi0].
        -- rewrite list_lookup_alter_eq in Hlook.
           destruct (heap s !! h0) as [t0|] eqn:Ht0; [|discriminate].
           injection Hlook as <-. apply spent_cancel.
           apply (Hsp h0 t0 Hi Ht0). exact Hkey.
        -- rewrite list_lookup_alter_ne in Hlook by congruence. eauto.
      * destruct (i - length heap1)%nat; [|discriminate].
        injection Hlook as <-. cbn in Hkey. congruence.
  - destruct (take_batch_other key' key s Hne) as [Hp' Ht'].
    unfold armed. rewrite Hp', Ht', take_batch_heap. auto.
  - intros i Hi.
    destruct (outcome_armed key' h d paths i s (timer_thread i s)) as (Ha & Hf & _).
    + unfold armed; auto.
    + exact Hi.
    + apply timer_thread_outcome.
    + split; [exact Ha | exact Hf].
Qed.

Lemma other_keys_leave_batch_alone_witness :
  let paths : gset string := {[ "/lib/showA/e01.mkv" ]} in
  (forall delay p,
     armed "/lib/showA" 0 60 paths (schedule_key delay "/lib/showB" p one_scheduled))
  /\ armed "/lib/showA" 0 60 paths (take_batch "/lib/showB" one_scheduled).1
  /\ (forall i, i <> 0%nat ->
        armed "/lib/showA" 0 60 paths (timer_thread i one_scheduled)
        /\ fires_for "/lib/showA" (fired (timer_thread i one_scheduled))
           = fires_for "/lib/showA" (fired one_scheduled)).
Proof.
  apply (other_keys_leave_batch_alone one_scheduled "/lib/showB" "/lib/showA").
  - exact (reach_step (ASchedule no_files demo_plugin "/lib/showA/e01.mkv")
             init_sched reach_init).
  - exact (schedule_from_quiescent "/lib/showA" 60 "/lib/showA/e01.mkv" init_sched
             (quiescent_init "/lib/showA")).
  - discriminate.
Defined.

(** ** [_find_matching_library]: the longest location *)

Lemma best_fits_ext target seen seen' b :
  (forall lib loc, seen lib loc <-> seen' lib loc) ->
  best_fits target seen b -> best_fits target seen' b.
Proof.
  intros Hext [Hmax Hbest]. split.
  - intros lib loc Hs Hp. apply (Hmax lib loc); [now apply Hext | exact Hp].
  - destruct (best_match b) as [lib|]; [|exact Hbest].
    destruct Hbest as (loc & Hs & Hrest). exists loc. split; [now apply Hext | exact Hrest].
Qed.

Lemma scan_locations_fits target lib locs :
  forall b b' seen,
    best_fits target seen b ->
    scan_locations target lib locs b = Ret b' ->
    best_fits target (fun l loc => seen l loc \/ (l = lib /\ Some loc ∈ locs)) b'
    /\ Forall (fun l : option string => l <> None) locs.
Proof.
  induction locs as [|[location|] rest IH]; intros b b' seen Hb Hscan.
  - injection Hscan as <-. split; [|constructor].
    apply (best_fits_ext target seen); [|exact Hb].
    intros l loc. split; [now left | intros [H | [_ H]]; [exact H|]].
    now apply elem_of_nil in H.
  - cbn [scan_locations] in Hscan.
    change (PyStr.replace_char PyStr.backslash PyStr.slash location)
      with (forward_slashes location) in Hscan.
    set (seen1 := fun l loc => seen l loc \/ (l = lib /\ loc = location)).
    assert (Hstep : forall b1,
              best_fits target seen1 b1 ->
              scan_locations target lib rest b1 = Ret b' ->
              best_fits target
                (fun l loc => seen l loc \/ (l = lib /\ Some loc ∈ Some location :: rest)) b'
              /\ Forall (fun l : option string => l <> None) (Some location :: rest)).
    { intros b1 Hb1 Hs. destruct (IH b1 b' seen1 Hb1 Hs) as [Hfit Hall].
      split; [|constructor; [discriminate | exact Hall]].
      apply (best_fits_ext target
               (fun l loc => seen1 l loc \/ (l = lib /\ Some loc ∈ rest))); [|exact Hfit].
      intros l loc. unfold seen1. rewrite elem_of_cons. split.
      - intros [[H | [-> ->]] | [-> H]]; auto.
      - intros [H | [-> [[= ->] | H]]]; auto. }
    destruct Hb as [Hmax Hbest].
    destruct (PyStr.startswith target (forward_slashes location)) eqn:Hpre; cbn [andb] in Hscan.
    + destruct (max_match_length b <? String.length (forward_slashes location))%nat eqn:Hlt.
      * apply Nat.ltb_lt in Hlt. apply Hstep in Hscan; [exact Hscan|].
        split; cbn [max_match_length best_match].
        -- intros l loc [Hs | [-> ->]] Hp; [|lia].
           specialize (Hmax l loc Hs Hp). lia.
        -- exists location. unfold seen1. repeat split; auto. lia.
      * apply Nat.ltb_ge in Hlt. apply Hstep in Hscan; [exact Hscan|].
        split.
        -- intros l loc [Hs | [-> ->]] Hp; [exact (Hmax l loc Hs Hp) | exact Hlt].
        -- destruct (best_match b) as [l0|]; [|exact Hbest].
           destruct Hbest as (loc & Hs & Hrest). exists loc.
           split; [now left | exact Hrest].
    + apply Hstep in Hscan; [exact Hscan|].
      split.
      * intros l loc [Hs | [-> ->]] Hp; [exact (Hmax l loc Hs Hp) | congruence].
      * destruct (best_match b) as [l0|]; [|exact Hbest].
        destruct Hbest as (loc & Hs & Hrest). exists loc.
        split; [now left | exact Hrest].
  - discriminate Hscan.
Qed.

Lemma scan_libraries_fits target info :
  forall b b' seen,
    best_fits target seen b ->
    scan_libraries target info b = Ret b' ->
    best_fits target (fun l loc => seen l loc \/ location_of info l loc) b'
    /\ Forall (fun kv => located kv.2) info.
Proof.
  induction info as [|[name data] rest IH]; intros b b' seen Hb Hscan.
  - injection Hscan as <-. split; [|constructor].
    apply (best_fits_ext target seen); [|exact Hb].
    intros l loc. split; [now left | intros [H | (n & d & H & _)]; [exact H|]].
    now apply elem_of_nil in H.
  - cbn [scan_libraries] in Hscan.
    destruct (scan_locations target (name, lib_id data) (lib_locations data) b)
      as [b1|e] eqn:Hlocs; [|discriminate Hscan].
    cbn [bind] in Hscan.
    destruct (scan_locations_fits target _ _ b b1 seen Hb Hlocs) as [Hfit1 Hall1].
    destruct (IH b1 b' _ Hfit1 Hscan) as [Hfit Hall].
    split; [|constructor; [exact Hall1 | exact Hall]].
    eapply best_fits_ext; [|exact Hfit].
    intros l loc. cbn. unfold location_of. split.
    + intros [[H | [-> H]] | (n & d & Hin & -> & Hloc)].
      * now left.
      * right. exists name, data. rewrite elem_of_cons. auto.
      * right. exists n, d. rewrite elem_of_cons. auto.
    + intros [H | (n & d & Hin & -> & Hloc)]; [now left; left|].
      apply elem_of_cons in Hin as [[= -> ->] | Hin].
      * left. right. auto.
      * right. exists n, d. auto.
Qed.

Lemma find_matching_library_fits target info r :
  _find_matching_library target info = Ret r ->
  exists b, r = best_match b
    /\ best_fits (forward_slashes target) (location_of info) b
    /\ Forall (fun kv => located kv.2) info.
Proof.
  unfold _find_matching_library.
  change (PyStr.replace_char PyStr.backslash PyStr.slash target)
    with (forward_slashes target).
  destruct (scan_libraries (forward_slashes target) info
              {| best_match := None; max_match_length := 0 |}) as [b|e] eqn:Hscan;
    [|discriminate].
  cbn [bind]. intros [= <-]. exists b. split; [reflexivity|].
  destruct (scan_libraries_fits (forward_slashes target) info
              {| best_match := None; max_match_length := 0 |} b
              (fun _ _ => False)) as [Hfit Hall]; [|exact Hscan|].
  - split; [intros ? ? [] | reflexivity].
  - split; [|exact Hall].
    eapply best_fits_ext; [|exact Hfit].
    intros l loc. cbn. tauto.
Qed.

(** X14.  The library [_find_matching_library] returns has a location
    that, slashes put forward on both sides, is a prefix of the target
    and is not empty, and no location of any library that is a prefix of
    the target is longer. *)
Theorem find_matching_library_longest_location target info lib :
  _find_matching_library target info = Ret (Some lib) ->
  exists loc,
    location_of info lib loc
    /\ PyStr.startswith (forward_slashes target) (forward_slashes loc) = true
    /\ loc <> EmptyString
    /\ forall lib' loc',
         location_of info lib' loc' ->
         PyStr.startswith (forward_slashes target) (forward_slashes loc') = true ->
         (String.length loc' <= String.length loc)%nat.
Proof.
  intros Hfind.
  destruct (find_matching_library_fits target info _ Hfind) as (b & Hb & [Hmax Hbest] & _).
  rewrite <- Hb in Hbest. destruct Hbest as (loc & Hloc & Hpre & Hlen & Hpos).
  exists loc. split; [exact Hloc|]. split; [exact Hpre|]. split.
  - intros ->. cbn in Hlen. lia.
  - intros lib' loc' Hloc' Hpre'.
    specialize (Hmax lib' loc' Hloc' Hpre').
    unfold forward_slashes in Hmax, Hlen.
    rewrite replace_char_length in Hmax, Hlen. lia.
Qed.

Lemma find_matching_library_longest_location_witness :
  let info :=
    [ (Some "TV", {| lib_id := Some "2"; lib_type := Some "show";
                     lib_locations := [Some "/data/tv"] |});
      (Some "Anime", {| lib_id := Some "3"; lib_type := Some "show";
                        lib_locations := [Some "D:\anime"; Some "/data/tv/anime"] |}) ] in
  exists loc,
    location_of info (Some "Anime", Some "3") loc
    /\ PyStr.startswith (forward_slashes "/data/tv/anime/show")
         (forward_slashes loc) = true
    /\ loc <> EmptyString
    /\ forall lib' loc',
         location_of info lib' loc' ->
         PyStr.startswith (forward_slashes "/data/tv/anime/show")
           (forward_slashes loc') = true ->
         (String.length loc' <= String.length loc)%nat.
Proof.
  apply (find_matching_library_longest_location "/data/tv/anime/show").
  reflexivity.
Defined.

(** X15.  [_find_matching_library] returns [None] exactly when every
    [Location] carries its path and none that is not empty is a prefix
    of the target; an empty location is never taken. *)
Theorem find_matching_library_none_iff_no_location_fits target info :
  _find_matching_library target info = Ret None
  <-> Forall (fun kv => located kv.2) info
      /\ forall lib loc,
           location_of info lib loc ->
           PyStr.startswith (forward_slashes target) (forward_slashes loc) = true ->
           loc = EmptyString.
Proof.
  split.
  - intros Hfind.
    destruct (find_matching_library_fits target info _ Hfind)
      as (b & Hb & [Hmax Hbest] & Hall).
    split; [exact Hall|]. intros lib loc Hloc Hpre.
    rewrite <- Hb in Hbest. specialize (Hmax lib loc Hloc Hpre).
    unfold forward_slashes in Hmax. rewrite replace_char_length in Hmax.
    destruct loc; [reflexivity | cbn in Hmax; lia].
  - intros [Hall Hnone].
    destruct (_find_matching_library target info) as [r|e] eqn:Hfind.
    + destruct r as [lib|]; [|reflexivity].
      destruct (find_matching_library_fits target info _ Hfind)
        as (b & Hb & [_ Hbest] & _).
      rewrite <- Hb in Hbest. destruct Hbest as (loc & Hloc & Hpre & Hlen & Hpos).
      rewrite (Hnone lib loc Hloc Hpre) in Hlen. cbn in Hlen. lia.
    + unfold _find_matching_library in Hfind.
      destruct (scan_libraries_returns
                  (PyStr.replace_char PyStr.backslash PyStr.slash target) info
                  {| best_match := None; max_match_length := 0 |} Hall) as [b' Hb'].
      rewrite Hb' in Hfind. discriminate Hfind.
Qed.

(** ** [_get_library_info]: one entry for each title *)

Lemma dict_set_keys {V : Type} k (v : V) d :
  NoDup d.*1 ->
  NoDup (dict_set k v d).*1
  /\ forall k' v', (k', v') ∈ dict_set k v d
       <-> (k' = k /\ v' = v) \/ (k' <> k /\ (k', v') ∈ d).
Proof.
  induction d as [|[k0 v0] d IH]; intros Hnd.
  - cbn. split; [apply NoDup_singleton|].
    intros k' v'. rewrite list_elem_of_singleton. split.
    + intros [= -> ->]. now left.
    + intros [[-> ->] | [_ H]]; [reflexivity | now apply elem_of_nil in H].
  - cbn in Hnd. apply NoDup_cons in Hnd as [Hk0 Hnd].
    destruct (IH Hnd) as [IHnd IHin].
    cbn [dict_set]. destruct (decide (k = k0)) as [<-|Hne].
    + split; [cbn; apply NoDup_cons; auto|].
      intros k' v'. rewrite !elem_of_cons. split.
      * intros [[= -> ->] | Hin]; [now left|].
        right. split; [|now right]. intros ->.
        apply Hk0. apply list_elem_of_fmap. exists (k, v'). auto.
      * intros [[-> ->] | [Hk [[= -> _] | Hin]]]; auto. congruence.
    + split.
      * cbn. apply NoDup_cons. split; [|exact IHnd].
        intros Hin. apply list_elem_of_fmap in Hin as ([k1 v1] & Heq & Hin).
        cbn in Heq. subst k1. apply IHin in Hin as [[-> _] | [_ Hin]]; [congruence|].
        apply Hk0. apply list_elem_of_fmap. exists (k0, v1). auto.
      * intros k' v'. rewrite !elem_of_cons, IHin. split.
        -- intros [[= -> ->] | [[-> ->] | [Hk Hin]]]; auto.
        -- intros [[-> ->] | [Hk [[= -> ->] | Hin]]]; auto.
Qed.

Lemma library_info_fold dirs :
  let info := fold_left (fun info d => dict_set (d_title d) (library_of d) info)
                dirs [] in
  NoDup info.*1
  /\ forall name lib,
       (name, lib) ∈ info
       <-> exists pre d post,
             dirs = (pre ++ d :: post)%list /\ d_title d = name
             /\ lib = library_of d
             /\ Forall (fun d' => d_title d' <> name) post.
Proof.
  cbv zeta. induction dirs as [|d dirs [IHnd IHin]] using rev_ind.
  - cbn. split; [constructor|]. intros name lib. split.
    + intros H. now apply elem_of_nil in H.
    + intros (pre & d & post & H & _). now destruct pre.
  - rewrite fold_left_app. cbn [fold_left].
    destruct (dict_set_keys (d_title d) (library_of d) _ IHnd) as [Hnd Hin].
    split; [exact Hnd|]. intros name lib. rewrite Hin. split.
    + intros [[-> ->] | [Hne Hold]].
      * exists dirs, d, []. repeat split; constructor.
      * apply IHin in Hold as (pre & d0 & post & -> & Ht & Hl & Hpost).
        exists pre, d0, (post ++ [d])%list.
        split; [now rewrite <- app_assoc|]. split; [exact Ht|]. split; [exact Hl|].
        apply Forall_app. split; [exact Hpost|]. constructor; [congruence | constructor].
    + intros (pre & d0 & post & Heq & Ht & Hl & Hpost).
      destruct post as [|x post _] using rev_ind.
      * apply app_inj_tail in Heq as [-> ->]. left. auto.
      * change (pre ++ d0 :: post ++ [x])%list
          with (pre ++ (d0 :: post) ++ [x])%list in Heq.
        rewrite app_assoc in Heq. apply app_inj_tail in Heq as [-> ->].
        apply Forall_app in Hpost as [Hpost Hx]. apply Forall_cons in Hx as [Hx _].
        right. split; [congruence|]. apply IHin.
        exists pre, d0, post. auto.
Qed.

Lemma library_info_entries up :
  (forall e, up_sections up = Raise e -> _get_library_info up = [])
  /\ (forall dirs, up_sections up = Ret dirs ->
      forall name lib,
        (name, lib) ∈ _get_library_info up
        <-> exists pre d post,
              dirs = (pre ++ d :: post)%list /\ d_title d = name
              /\ lib = library_of d
              /\ Forall (fun d' => d_title d' <> name) post).
Proof.
  unfold _get_library_info. destruct (up_sections up) as [dirs|e].
  - destruct (library_info_fold dirs) as [_ Hin].
    split; [discriminate|]. intros dirs' [= <-]. exact Hin.
  - split; [reflexivity | discriminate].
Qed.

(** X16.  [_get_library_info] holds one entry for each title of the
    answer, made from the last [Directory] with that title; when the
    request, the status check or the parser raises, it is empty. *)
Theorem library_info_keeps_last_directory up :
  NoDup (_get_library_info up).*1
  /\ (forall e, up_sections up = Raise e -> _get_library_info up = [])
  /\ (forall dirs, up_sections up = Ret dirs ->
      forall name lib,
        (name, lib) ∈ _get_library_info up
        <-> exists pre d post,
              dirs = (pre ++ d :: post)%list /\ d_title d = name
              /\ lib = library_of d
              /\ Forall (fun d' => d_title d' <> name) post).
Proof.
  unfold _get_library_info. destruct (up_sections up) as [dirs|e].
  - destruct (library_info_fold dirs) as [Hnd Hin].
    split; [exact Hnd|]. split; [discriminate|].
    intros dirs' [= <-]. exact Hin.
  - split; [constructor|]. split; [reflexivity | discriminate].
Qed.

(** ** [_refresh_plex_path_http]: how a call can end *)

(** X17.  The refresh call returns [True] only when the connection
    information was found, a library matched the path, and the server
    answered the refresh request with status 200. *)
Theorem refresh_true_only_on_status_200 self up target_path :
  _refresh_plex_path_http self up target_path = Ret true ->
  is_Some (_get_plex_connection_info self up)
  /\ (exists lib,
        _find_matching_library target_path (_get_library_info up) = Ret (Some lib))
  /\ up_refresh up = Status 200.
Proof.
  unfold _refresh_plex_path_http.
  destruct (_get_plex_connection_info self up) as [conn|]; [|discriminate].
  destruct (_get_library_info up) as [|kv info] eqn:Hinfo; [discriminate|].
  destruct (_find_matching_library target_path (kv :: info)) as [[lib|]|e];
    cbn [bind]; try discriminate.
  unfold refresh_request. destruct (up_refresh up) as [|code]; [discriminate|].
  destruct ((400 <=? code) && (code <? 600)); [discriminate|].
  intros [= Hcode]. apply Z.eqb_eq in Hcode. subst code.
  split; [eauto|]. split; [eauto | reflexivity].
Qed.

Lemma refresh_true_only_on_status_200_witness :
  is_Some (_get_plex_connection_info demo_plugin up_healthy)
  /\ (exists lib,
        _find_matching_library "/lib/showA" (_get_library_info up_healthy)
        = Ret (Some lib))
  /\ up_refresh up_healthy = Status 200.
Proof.
  apply (refresh_true_only_on_status_200 demo_plugin up_healthy "/lib/showA").
  reflexivity.
Defined.

Lemma scan_locations_raises target lib locs b e :
  scan_locations target lib locs b = Raise e ->
  e = AttributeError /\ None ∈ locs.
Proof.
  revert b. induction locs as [|[location|] rest IH]; intros b; cbn [scan_locations].
  - discriminate.
  - intros H. destruct (_ && _) in H; apply IH in H as [-> Hin];
      (split; [reflexivity | now apply elem_of_cons; right]).
  - intros [= <-]. split; [reflexivity | apply elem_of_cons; now left].
Qed.

Lemma scan_libraries_raises target info b e :
  scan_libraries target info b = Raise e ->
  e = AttributeError
  /\ exists name data, (name, data) ∈ info /\ None ∈ lib_locations data.
Proof.
  revert b. induction info as [|[name data] rest IH]; intros b; cbn [scan_libraries].
  - discriminate.
  - destruct (scan_locations target (name, lib_id data) (lib_locations data) b)
      as [b1|e1] eqn:Hlocs; cbn [bind].
    + intros H. apply IH in H as (-> & n & d & Hin & Hnone).
      split; [reflexivity|]. exists n, d. split; [apply elem_of_cons; now right | exact Hnone].
    + intros [= <-]. apply scan_locations_raises in Hlocs as [-> Hnone].
      split; [reflexivity|]. exists name, data.
      split; [apply elem_of_cons; now left | exact Hnone].
Qed.

(** X18.  The only exception that leaves the refresh call is the
    [AttributeError] of a [Location] without [path] in the answer of
    [/library/sections]: no failure of the network, no status code and
    no missing setting makes the call raise. *)
Theorem refresh_raises_only_on_location_without_path self up target_path e :
  _refresh_plex_path_http self up target_path = Raise e ->
  e = AttributeError
  /\ exists dirs d,
       up_sections up = Ret dirs /\ d ∈ dirs /\ None ∈ d_locations d.
Proof.
  unfold _refresh_plex_path_http.
  destruct (_get_plex_connection_info self up) as [conn|]; [|discriminate].
  destruct (_get_library_info up) as [|kv info] eqn:Hinfo; [discriminate|].
  destruct (_find_matching_library target_path (kv :: info)) as [[lib|]|e'] eqn:Hfind;
    cbn [bind]; try discriminate.
  intros [= ->].
  unfold _find_matching_library in Hfind.
  destruct (scan_libraries _ (kv :: info) _) as [b|e'] eqn:Hscan; [discriminate|].
  cbn [bind] in Hfind. injection Hfind as <-.
  apply scan_libraries_raises in Hscan as (-> & name & data & Hin & Hnone).
  split; [reflexivity|].
  destruct (library_info_entries up) as [Hraise Hret].
  destruct (up_sections up) as [dirs|e0] eqn:Hsec.
  - rewrite <- Hinfo in Hin.
    apply (Hret dirs eq_refl) in Hin as (pre & d & post & -> & _ & -> & _).
    exists (pre ++ d :: post)%list, d. split; [reflexivity|].
    split; [|exact Hnone]. apply elem_of_app. right. apply elem_of_cons. now left.
  - rewrite (Hraise e0 eq_refl) in Hinfo. discriminate.
Qed.

Lemma refresh_raises_only_on_location_without_path_witness :
  AttributeError = AttributeError
  /\ exists dirs d,
       up_sections up_malformed = Ret dirs /\ d ∈ dirs /\ None ∈ d_locations d.
Proof.
  apply (refresh_raises_only_on_location_without_path demo_plugin up_malformed
           "/lib/showA").
  reflexivity.
Defined.

(** ** [_get_plex_connection_info]: the form of the URL *)

Lemma string_of_list_ascii_app l1 l2 :
  string_of_list_ascii (l1 ++ l2)
  = string_of_list_ascii l1 ++ string_of_list_ascii l2.
Proof. induction l1 as [|c l1 IH]; cbn; [reflexivity | now rewrite IH]. Qed.

Lemma rstrip_slash_rev_spec l :
  (exists k, l = (repeat PyStr.slash k ++ rstrip_slash_rev l)%list)
  /\ forall l', rstrip_slash_rev l <> PyStr.slash :: l'.
Proof.
  induction l as [|c l [[k IHk] IHh]]; cbn [rstrip_slash_rev].
  - split; [now exists 0%nat | discriminate].
  - destruct (Ascii.eqb c PyStr.slash) eqn:Hc.
    + apply Ascii.eqb_eq in Hc. subst c. split; [|exact IHh].
      exists (S k). cbn. now rewrite <- IHk.
    + split; [now exists 0%nat|].
      intros l' [= -> _]. now rewrite Ascii.eqb_refl in Hc.
Qed.

(** What [rstrip('/')] leaves: the string without the slashes at its
    end, and nothing that ends in a slash. *)
Lemma rstrip_slash_spec s :
  (exists k, s = rstrip_slash s ++ string_of_list_ascii (repeat PyStr.slash k))
  /\ forall pre, rstrip_slash s <> pre ++ "/".
Proof.
  unfold rstrip_slash.
  destruct (rstrip_slash_rev_spec (rev (list_ascii_of_string s))) as [[k Hk] Hh].
  split.
  - exists k. rewrite <- string_of_list_ascii_app.
    rewrite <- (rev_repeat k PyStr.slash) at 1. rewrite <- rev_app_distr, <- Hk.
    now rewrite rev_involutive, string_of_list_ascii_of_string.
  - intros pre Heq.
    apply (f_equal list_ascii_of_string) in Heq.
    rewrite list_ascii_of_string_of_list_ascii in Heq.
    apply (f_equal (@rev ascii)) in Heq. rewrite rev_involutive in Heq.
    rewrite list_ascii_of_string_app, rev_app_distr in Heq. cbn in Heq.
    exact (Hh _ Heq).
Qed.

Lemma prefix_before_slashes p u k :
  PyStr.contains_char PyStr.slash p = false ->
  String.prefix p (u ++ string_of_list_ascii (repeat PyStr.slash k)) = true ->
  String.prefix p u = true.
Proof.
  revert u. induction p as [|a p IH]; intros u Hc Hp.
  - now destruct u.
  - cbn [PyStr.contains_char] in Hc.
    destruct (Ascii.eqb a PyStr.slash) eqn:Ha; [discriminate|].
    destruct u as [|c u].
    + change (EmptyString ++ string_of_list_ascii (repeat PyStr.slash k))
        with (string_of_list_ascii (repeat PyStr.slash k)) in Hp.
      destruct k as [|k]; simpl in Hp; [discriminate|].
      destruct (ascii_dec a PyStr.slash) as [Heq|Hneq]; [|discriminate Hp].
      subst a. now rewrite Ascii.eqb_refl in Ha.
    + change (String.prefix (String a p)
                (String c (u ++ string_of_list_ascii (repeat PyStr.slash k))) = true)
        in Hp.
      simpl in Hp |- *. destruct (ascii_dec a c); [|discriminate Hp].
      now apply IH.
Qed.

(** X19.  The connection information, when there is one, holds a token
    that is not empty and a URL that starts with [http] and does not end
    in a slash: it is the address of the service, [_host] before
    [host], with [http://] put in front unless the address starts with
    [http], and with the slashes at its end taken off. *)
Theorem connection_info_url_shape self up url token :
  _get_plex_connection_info self up = Some (url, token) ->
  PyStr.startswith url "http" = true
  /\ (forall pre, url <> pre ++ "/")
  /\ token <> EmptyString
  /\ exists inst address k,
       plex_service self (up_services up) = Some inst
       /\ truthy (py_or (s__host inst) (s_host inst)) = Some address
       /\ truthy (py_or (s__token inst) (s_token inst)) = Some token
       /\ url ++ string_of_list_ascii (repeat PyStr.slash k)
          = (if PyStr.startswith address "http" then address
             else "http://" ++ address).
Proof.
  unfold _get_plex_connection_info.
  destruct (plex_service self (up_services up)) as [inst|]; [|discriminate].
  destruct (truthy (py_or (s__host inst) (s_host inst))) as [address|] eqn:Ha;
    [|discriminate].
  destruct (truthy (py_or (s__token inst) (s_token inst))) as [tok|] eqn:Ht;
    [|discriminate].
  intros [= <- <-].
  set (full := if PyStr.startswith address "http" then address
               else "http://" ++ address).
  destruct (rstrip_slash_spec full) as [[k Hk] Hend].
  assert (Hfull : PyStr.startswith full "http" = true).
  { subst full. destruct (PyStr.startswith address "http") eqn:Hs; [exact Hs|].
    unfold PyStr.startswith. cbn. reflexivity. }
  split; [|split; [exact Hend|split]].
  - unfold PyStr.startswith in *. rewrite Hk in Hfull.
    apply (prefix_before_slashes "http" _ k); [reflexivity | exact Hfull].
  - apply truthy_Some in Ht as [_ Ht]. exact Ht.
  - exists inst, address, k. repeat split; try assumption. now rewrite <- Hk.
Qed.

Lemma connection_info_url_shape_witness :
  PyStr.startswith "http://plex.local:32400" "http" = true
  /\ (forall pre, "http://plex.local:32400" <> pre ++ "/")
  /\ "token" <> EmptyString
  /\ exists inst address k,
       plex_service demo_plugin (up_services up_healthy) = Some inst
       /\ truthy (py_or (s__host inst) (s_host inst)) = Some address
       /\ truthy (py_or (s__token inst) (s_token inst)) = Some "token"
       /\ "http://plex.local:32400" ++ string_of_list_ascii (repeat PyStr.slash k)
          = (if PyStr.startswith address "http" then address
             else "http://" ++ address).
Proof.
  apply (connection_info_url_shape demo_plugin up_healthy).
  reflexivity.
Defined.

(** ** From the event to the deferred call *)



(** ** [HardLinkJacker]: the counter *)

Lemma call_link_keeps {M FS : Type} (ops : HardLink.fs_ops FS) (m : M)
    (w : Hijack.world M) p t fs :
  hijack_ok m w ->
  let w' := (Hijack.call_link ops w p t fs).1 in
  hijack_ok m w'
  /\ Hijack._hijacked w'.1 = Hijack._hijacked w.1
  /\ Hijack._intercept_count w'.1
     = ((if Hijack._hijacked w.1 then 1 else 0) + Hijack._intercept_count w.1)%nat.
Proof.
  destruct w as [[e n o h] l]. unfold hijack_ok. cbn.
  destruct h; cbn.
  - intros (-> & -> & ->).
    unfold HardLink._custom_link_method.
    destruct (truthy p) as [path|]; cbn.
    + destruct (HardLink._custom_link_logic ops _ t fs) as [[fs' calls] [code msg]].
      cbn. auto.
    + auto.
  - intros ->. cbn. auto.
Qed.

(** X21.  The counter [get_status] reports is the number of calls of
    [LocalStorage.link] made while the hook was installed, that is while
    the last call of the host was [init_plugin] with [enabled] true:
    such a call counts whether the link succeeds, fails or has no file
    path, and a call made at another time does not reach the plug-in. *)
Theorem intercept_count_counts_hooked_calls {M FS : Type}
    (ops : HardLink.fs_ops FS) (m : M) (es : list (jack_event FS)) :
  let w := jack_run ops es (Hijack.new_jacker, Hijack.HostLink m) in
  Hijack._intercept_count w.1 = intercepted false es
  /\ hijack_ok m w.
Proof.
  cbv zeta.
  assert (Hgen : forall w : Hijack.world M,
            hijack_ok m w ->
            Hijack._intercept_count (jack_run ops es w).1
            = (Hijack._intercept_count w.1
               + intercepted (Hijack._hijacked w.1) es)%nat
            /\ hijack_ok m (jack_run ops es w)).
  { induction es as [|e es IH]; intros w Hok.
    - cbn. split; [lia | exact Hok].
    - unfold jack_run in *. cbn [fold_left].
      destruct e as [c | p t fs]; cbn [jack_step].
      + destruct (hijack_ok_step m c w Hok) as (Hok' & Hh & Hn).
        destruct (IH _ Hok') as [IHn IHok]. split; [|exact IHok].
        rewrite IHn, Hn, Hh. destruct c as [[[|]|]|]; reflexivity.
      + destruct (call_link_keeps ops m w p t fs Hok) as (Hok' & Hh & Hn).
        destruct (IH _ Hok') as [IHn IHok]. split; [|exact IHok].
        rewrite IHn, Hn, Hh. cbn [intercepted]. lia. }
  destruct (Hgen (Hijack.new_jacker, Hijack.HostLink m)) as [Hn Hok];
    [reflexivity|].
  split; [exact Hn | exact Hok].
Qed.

(** ** The deferred call takes the batch once *)

(** X22.  After the deferred call for a key has taken its batch the key
    is in neither map, so a second deferred call for the key, whoever
    makes it, finds nothing, changes nothing and refreshes nothing; what
    the first call took is what was pending. *)
Theorem batch_is_taken_once self up ups order key s :
  let s' := (take_batch key s).1 in
  (take_batch key s).2 = _pending_refreshes s !! key
  /\ _pending_refreshes s' !! key = None
  /\ (maps_agree s -> _refresh_timers s' !! key = None)
  /\ take_batch key s' = (s', None)
  /\ _execute_batch_refresh self up ups order key s' = (s', (Ret tt, [])).
Proof.
  cbv zeta.
  assert (Hp : _pending_refreshes (take_batch key s).1 !! key = None).
  { unfold take_batch. destruct (_pending_refreshes s !! key) eqn:Hk; cbn.
    - apply lookup_delete_eq.
    - exact Hk. }
  assert (Ht : take_batch key (take_batch key s).1 = ((take_batch key s).1, None)).
  { unfold take_batch at 1. now rewrite Hp. }
  split; [|split; [exact Hp|split; [|split; [exact Ht|]]]].
  - unfold take_batch. now destruct (_pending_refreshes s !! key).
  - intros [Hdom _]. unfold take_batch.
    destruct (_pending_refreshes s !! key) eqn:Hk; cbn.
    + apply lookup_delete_eq.
    + apply not_elem_of_dom. rewrite <- Hdom. now apply not_elem_of_dom.
  - unfold _execute_batch_refresh. now rewrite Ht.
Qed.

(** ** The deferred call as a whole *)

(** X23.  The deferred call ends with an exception exactly when it took
    a batch that is not empty and the batched call raised: the fallback
    never lets one out.  It makes no request when it finds nothing, one
    request when the batched call succeeds, and never more than one for
    the key and one for each path of the batch; every request is for the
    key or for a path of the batch. *)
Theorem deferred_call_raises_only_with_batched_call self up ups order key s :
  let r := _execute_batch_refresh self up ups order key s in
  let batch := default ∅ (_pending_refreshes s !! key) in
  (forall e, r.2.1 = Raise e
             <-> batch <> ∅ /\ _refresh_plex_path_http self up key = Raise e)
  /\ (length (attempts r.2.2) <= 1 + size batch)%nat
  /\ (batch = ∅ -> r.2.2 = [])
  /\ (batch <> ∅ -> _refresh_plex_path_http self up key = Ret true ->
      attempts r.2.2 = [key])
  /\ (forall p, In p (attempts r.2.2) -> p = key \/ p ∈ batch).
Proof.
  cbv zeta. unfold _execute_batch_refresh, take_batch.
  destruct (_pending_refreshes s !! key) as [paths|] eqn:Hk; cbn [default fst snd].
  - unfold process_batch.
    destruct (decide (paths = ∅)) as [He|Hne]; cbn [fst snd].
    + split; [|split; [cbn; lia|split; [reflexivity|split; [contradiction|]]]].
      * intros e. split; [discriminate | intros [H _]; contradiction].
      * intros p [].
    + destruct (_refresh_plex_path_http self up key) as [[|]|e0] eqn:Hr; cbn [fst snd].
      * split; [|split; [cbn; lia|split; [contradiction|split; [reflexivity|]]]].
        -- intros e. split; [discriminate | intros [_ H]; discriminate].
        -- cbn. intros p [<- | []]. now left.
      * cbn [attempts]. rewrite refresh_each_attempts.
        split; [|split; [|split; [contradiction|split; [discriminate|]]]].
        -- intros e. split; [discriminate | intros [_ H]; discriminate].
        -- cbn [length]. rewrite (Permutation_length (iter_perm order paths)).
           unfold size, set_size. cbn. lia.
        -- intros p [<- | Hin]; [now left|].
           right. apply elem_of_elements. rewrite <- (iter_perm order paths).
           now apply list_elem_of_In.
      * split; [|split; [cbn; lia|split; [contradiction|split; [discriminate|]]]].
        -- intros e. split; [intros [= <-]; auto | intros [_ [= <-]]; reflexivity].
        -- cbn. intros p [<- | []]. now left.
  - cbn. split; [|split; [lia|split; [reflexivity|split; [contradiction|]]]].
    + intros e. split; [discriminate | intros [H _]; contradiction].
    + intros p [].
Qed.
